(** * A shallow embedding of the low-latency execution core

    The development follows the packages of the repository:

    - [Fastqueue] : [pkg/fastqueue/queue.go], the ring buffer between the
      submission layer and the worker;
    - [Arena]     : [pkg/arena/arena.go], the bump allocator;
    - [Zlog]      : [pkg/zlog/logger.go], the structured logger;
    - [Core]      : [pkg/core/engine.go], the worker's task handlers and
      its loop;
    - [Main]      : [main.go], the handlers of the submission layer.

    Go's [uint64] and [int] are integers of [Z] with their wrap-around
    written out, byte slices are lists of [byte], a run-time panic is an
    explicit outcome of the function that raises it. *)

From Stdlib Require Import ZArith List Lia Bool.
From Stdlib Require Import Strings.Ascii Strings.String Strings.Byte.
From Stdlib Require Import Floats.SpecFloat.
From coqutil Require Import Word.LittleEndianList.
From stdpp Require Import base list.

Open Scope Z_scope.

(** ** Machine integers *)

Module GoInt.

(** [uint64] arithmetic wraps modulo [2^64]. *)
Definition u64 (z : Z) : Z := z mod 2 ^ 64.

Definition MaxInt : Z := 2 ^ 63 - 1.
Definition MinInt : Z := - 2 ^ 63.

(** [int] is 64 bits wide and signed; overflow wraps in two's complement. *)
Definition wrap (z : Z) : Z := (z + 2 ^ 63) mod 2 ^ 64 - 2 ^ 63.

Definition in_int (z : Z) : Prop := MinInt <= z <= MaxInt.

(** A power of two in the mathematical sense: [1], [2], [4], ... *)
Definition is_pow2 (n : Z) : Prop := exists k, 0 <= k /\ n = 2 ^ k.

End GoInt.

Import GoInt.

(** ** Outcomes of a call

    A Go function either returns or panics; [Panic] carries the message of
    the panic. *)

Inductive result (A : Type) : Type :=
| Ok (a : A)
| Panic (msg : string).

Arguments Ok {A} a.
Arguments Panic {A} msg.

(** ** Zero values

    Every Go type has a zero value: what [make] fills a slice with and what
    [var x T] declares. *)

Class Zero (T : Type) : Type := zero : T.

#[global] Instance Z_Zero : Zero Z := 0.

(** ** Facts about machine integers *)

Lemma u64_range z : 0 <= u64 z < 2 ^ 64.
Proof. unfold u64. apply Z.mod_pos_bound. lia. Qed.

Lemma u64_small z : 0 <= z < 2 ^ 64 -> u64 z = z.
Proof. intros H. unfold u64. now apply Z.mod_small. Qed.

Lemma u64_add_l a b : u64 (u64 a + b) = u64 (a + b).
Proof. unfold u64. now rewrite Zplus_mod_idemp_l. Qed.

Lemma u64_add_r a b : u64 (a + u64 b) = u64 (a + b).
Proof. unfold u64. now rewrite Zplus_mod_idemp_r. Qed.

Lemma u64_sub_l a b : u64 (u64 a - b) = u64 (a - b).
Proof. unfold u64. now rewrite Zminus_mod_idemp_l. Qed.

Lemma u64_sub_r a b : u64 (a - u64 b) = u64 (a - b).
Proof. unfold u64. now rewrite Zminus_mod_idemp_r. Qed.

Lemma wrap_small z : in_int z -> wrap z = z.
Proof.
  unfold in_int, MinInt, MaxInt, wrap. intros H.
  rewrite Z.mod_small; lia.
Qed.

Lemma wrap_range z : in_int (wrap z).
Proof.
  unfold in_int, MinInt, MaxInt, wrap.
  pose proof (Z.mod_pos_bound (z + 2 ^ 63) (2 ^ 64)). lia.
Qed.

(** A sum of two non-negative [int]s that has not become negative has not
    wrapped. *)
Lemma wrap_of_nonneg x : 0 <= x <= 2 * MaxInt -> 0 <= wrap x -> wrap x = x.
Proof.
  unfold MaxInt, wrap. intros Hx Hw.
  destruct (Z_le_gt_dec x (2 ^ 63 - 1)).
  - rewrite Z.mod_small; lia.
  - replace (x + 2 ^ 63) with (x - 2 ^ 63 + 1 * 2 ^ 64) in Hw by lia.
    rewrite Z.mod_add, Z.mod_small in Hw; lia.
Qed.

(** Two numbers below the modulus that agree modulo it are equal up to a
    multiple of it; with a distance below the modulus they are equal. *)
Lemma mod_eq_close a b m :
  0 < m -> a mod m = b mod m -> - m < a - b < m -> a = b.
Proof.
  intros Hm Heq Hd.
  pose proof (Z.div_mod a m ltac:(lia)) as Ha.
  pose proof (Z.div_mod b m ltac:(lia)) as Hb.
  assert (a - b = m * (a / m - b / m)) as Hk by lia.
  assert (a / m - b / m = 0) by nia.
  lia.
Qed.

Lemma mod_pow2_u64 k z :
  0 <= k <= 64 -> u64 z mod 2 ^ k = z mod 2 ^ k.
Proof.
  intros Hk. unfold u64.
  apply Z.mod_mod_divide.
  exists (2 ^ (64 - k)). rewrite <- Z.pow_add_r by lia. f_equal. lia.
Qed.

Lemma land_mask_pow2 k z :
  0 <= k -> Z.land z (2 ^ k - 1) = z mod 2 ^ k.
Proof.
  intros Hk. rewrite <- Z.land_ones by lia.
  f_equal. rewrite Z.ones_equiv. lia.
Qed.

(** The test [size & (size-1) == 0] accepts the powers of two. *)
Lemma land_pred_pow2 k : 0 <= k -> Z.land (2 ^ k) (2 ^ k - 1) = 0.
Proof.
  intros Hk. rewrite land_mask_pow2 by lia. apply Z.mod_same. lia.
Qed.

(** Among the positive numbers it accepts nothing else. *)
Lemma land_pred_zero_pow2 n :
  0 < n -> Z.land n (n - 1) = 0 -> n = 2 ^ Z.log2 n.
Proof.
  intros Hn Hland.
  destruct (Z.log2_spec n Hn) as [Hlo Hhi].
  destruct (Z.eq_dec n (2 ^ Z.log2 n)) as [|Hne]; [assumption|exfalso].
  assert (Z.log2 (n - 1) = Z.log2 n) as Hlog.
  { apply Z.log2_unique; [apply Z.log2_nonneg|].
    replace (Z.succ (Z.log2 n)) with (Z.log2 n + 1) in * by lia. lia. }
  assert (Z.testbit (Z.land n (n - 1)) (Z.log2 n) = true) as Hbit.
  { assert (0 < 2 ^ Z.log2 n) by (apply Z.pow_pos_nonneg; [lia|apply Z.log2_nonneg]).
    assert (Z.testbit (n - 1) (Z.log2 n) = true) as Hpred.
    { rewrite <- Hlog. apply Z.bit_log2. lia. }
    rewrite Z.land_spec, Hpred, Z.bit_log2 by lia. reflexivity. }
  rewrite Hland, Z.bits_0 in Hbit. discriminate.
Qed.

(** ** pkg/fastqueue: the single-producer/single-consumer ring buffer *)

Module Fastqueue.

Section Model.

Context {T : Type} `{Zero T}.

(** The padding fields of the Go struct carry no data. *)
Record RingBuffer : Type := mkRingBuffer {
  buffer : list T;
  size : Z;
  mask : Z;
  head : Z;   (* write index, advanced by the producer *)
  tail : Z    (* read index, advanced by the consumer *)
}.

(** [New].  [size] is a [uint64], so [size - 1] wraps at [0].
    [make([]T, size)] panics when [size] does not fit an [int]; that the
    machine may run out of memory for a smaller size is left out. *)
Definition New (size : Z) : result RingBuffer :=
  if negb (Z.land size (u64 (size - 1)) =? 0)
  then Panic "size must be power of 2"
  else if MaxInt <? size
  then Panic "makeslice: len out of range"
  else Ok {| buffer := replicate (Z.to_nat size) zero;
             size := size;
             mask := u64 (size - 1);
             head := 0;
             tail := 0 |}.

(** [rb.buffer[i]] is bounds-checked by the Go runtime. *)
Definition in_bounds (i : Z) (l : list T) : bool :=
  (0 <=? i) && (i <? Z.of_nat (length l)).

(** The element that [rb.buffer[i & rb.mask]] reads. *)
Definition slot (rb : RingBuffer) (i : Z) : T :=
  default zero (buffer rb !! Z.to_nat (Z.land i (mask rb))).

Definition Push (rb : RingBuffer) (item : T) : result (RingBuffer * bool) :=
  let h := head rb in
  let t := tail rb in
  if size rb <=? u64 (h - t) then Ok (rb, false)
  else
    let i := Z.land h (mask rb) in
    if in_bounds i (buffer rb) then
      Ok ({| buffer := <[Z.to_nat i := item]> (buffer rb);
             size := size rb;
             mask := mask rb;
             head := u64 (h + 1);
             tail := t |}, true)
    else Panic "index out of range".

Definition Pop (rb : RingBuffer) : result (RingBuffer * (T * bool)) :=
  let h := head rb in
  let t := tail rb in
  if h <=? t then Ok (rb, (zero, false))
  else
    let i := Z.land t (mask rb) in
    if in_bounds i (buffer rb) then
      Ok ({| buffer := buffer rb;
             size := size rb;
             mask := mask rb;
             head := h;
             tail := u64 (t + 1) |}, (slot rb t, true))
    else Panic "index out of range".

(** *** Sequential use

    A history is a list of calls.  Running it threads the queue through
    the calls and records, in order, the items whose [Push] returned
    [true] and the items that [Pop] returned with [true]. *)

Inductive op : Type :=
| OpPush (item : T)
| OpPop.

Definition log : Type := (list T * list T)%type.

Definition run_op (o : op) (st : RingBuffer * log)
  : result (RingBuffer * log) :=
  let '(rb, (pushed, popped)) := st in
  match o with
  | OpPush item =>
      match Push rb item with
      | Ok (rb', true) => Ok (rb', (pushed ++ [item], popped))
      | Ok (rb', false) => Ok (rb', (pushed, popped))
      | Panic m => Panic m
      end
  | OpPop =>
      match Pop rb with
      | Ok (rb', (item, true)) => Ok (rb', (pushed, popped ++ [item]))
      | Ok (rb', (_, false)) => Ok (rb', (pushed, popped))
      | Panic m => Panic m
      end
  end.

Fixpoint run (ops : list op) (st : RingBuffer * log)
  : result (RingBuffer * log) :=
  match ops with
  | [] => Ok st
  | o :: ops' =>
      match run_op o st with
      | Ok st' => run ops' st'
      | Panic m => Panic m
      end
  end.

(** [push_pop n]: [n] rounds of one [Push] and one [Pop]. *)
Fixpoint push_pop (item : T) (n : nat) : list op :=
  match n with
  | O => []
  | S n' => OpPush item :: OpPop :: push_pop item n'
  end.

(** *** Producer and consumer side by side

    One agent calls [Push], another calls [Pop], and the two run at the
    same time.  Each call is a sequence of steps on the shared queue: the
    two atomic loads, the access to the storage, the atomic add.  The steps
    of the two agents interleave in any order; this is what Go's memory
    model gives a program whose only shared accesses are ordered by
    [sync/atomic] operations.

    Where a call stands is the agent's local state: the values it has
    loaded so far. *)

Inductive producer : Type :=
| PIdle
| PCalled (item : T)          (* in [Push(item)], nothing loaded yet *)
| PHead (item : T) (h : Z)    (* [head] loaded *)
| PTail (item : T) (h t : Z)  (* [tail] loaded *)
| PStored (item : T).         (* [rb.buffer[head&rb.mask] = item] done *)

Inductive consumer : Type :=
| CIdle
| CCalled                     (* in [Pop()], nothing loaded yet *)
| CHead (h : Z)               (* [head] loaded *)
| CTail (h t : Z)             (* [tail] loaded *)
| CLoaded (item : T).         (* [item := rb.buffer[tail&rb.mask]] done *)

Record system : Type := mkSystem {
  queue : RingBuffer;
  prod : producer;
  cons : consumer;
  pushed : list T;    (* the items of the calls to [Push] that returned [true] *)
  popped : list T     (* the items that [Pop] returned with [true] *)
}.

Inductive action : Type :=
| CallPush (item : T)   (* the producer enters [Push(item)] *)
| StepProducer          (* the producer takes its next step *)
| CallPop               (* the consumer enters [Pop()] *)
| StepConsumer.         (* the consumer takes its next step *)

Definition set_head (rb : RingBuffer) (h : Z) : RingBuffer :=
  {| buffer := buffer rb; size := size rb; mask := mask rb;
     head := h; tail := tail rb |}.

Definition set_tail (rb : RingBuffer) (t : Z) : RingBuffer :=
  {| buffer := buffer rb; size := size rb; mask := mask rb;
     head := head rb; tail := t |}.

Definition set_buffer (rb : RingBuffer) (l : list T) : RingBuffer :=
  {| buffer := l; size := size rb; mask := mask rb;
     head := head rb; tail := tail rb |}.

Definition producer_step (s : system) : result system :=
  let rb := queue s in
  match prod s with
  | PIdle => Ok s
  | PCalled item =>
      Ok {| queue := rb; prod := PHead item (head rb); cons := cons s;
            pushed := pushed s; popped := popped s |}
  | PHead item h =>
      Ok {| queue := rb; prod := PTail item h (tail rb); cons := cons s;
            pushed := pushed s; popped := popped s |}
  | PTail item h t =>
      if size rb <=? u64 (h - t) then
        (* return false *)
        Ok {| queue := rb; prod := PIdle; cons := cons s;
              pushed := pushed s; popped := popped s |}
      else
        let i := Z.land h (mask rb) in
        if in_bounds i (buffer rb) then
          Ok {| queue := set_buffer rb (<[Z.to_nat i := item]> (buffer rb));
                prod := PStored item; cons := cons s;
                pushed := pushed s; popped := popped s |}
        else Panic "index out of range"
  | PStored item =>
      (* atomic.AddUint64(&rb.head, 1); return true *)
      Ok {| queue := set_head rb (u64 (head rb + 1));
            prod := PIdle; cons := cons s;
            pushed := pushed s ++ [item]; popped := popped s |}
  end.

Definition consumer_step (s : system) : result system :=
  let rb := queue s in
  match cons s with
  | CIdle => Ok s
  | CCalled =>
      Ok {| queue := rb; prod := prod s; cons := CHead (head rb);
            pushed := pushed s; popped := popped s |}
  | CHead h =>
      Ok {| queue := rb; prod := prod s; cons := CTail h (tail rb);
            pushed := pushed s; popped := popped s |}
  | CTail h t =>
      if h <=? t then
        (* return empty, false *)
        Ok {| queue := rb; prod := prod s; cons := CIdle;
              pushed := pushed s; popped := popped s |}
      else
        let i := Z.land t (mask rb) in
        if in_bounds i (buffer rb) then
          Ok {| queue := rb; prod := prod s; cons := CLoaded (slot rb t);
                pushed := pushed s; popped := popped s |}
        else Panic "index out of range"
  | CLoaded item =>
      (* atomic.AddUint64(&rb.tail, 1); return item, true *)
      Ok {| queue := set_tail rb (u64 (tail rb + 1));
            prod := prod s; cons := CIdle;
            pushed := pushed s; popped := popped s ++ [item] |}
  end.

(** An agent inside a call does not enter another one: a second call while
    the first runs would be a second producer (or consumer). *)
Definition step (a : action) (s : system) : result system :=
  match a with
  | CallPush item =>
      match prod s with
      | PIdle => Ok {| queue := queue s; prod := PCalled item; cons := cons s;
                       pushed := pushed s; popped := popped s |}
      | _ => Ok s
      end
  | StepProducer => producer_step s
  | CallPop =>
      match cons s with
      | CIdle => Ok {| queue := queue s; prod := prod s; cons := CCalled;
                       pushed := pushed s; popped := popped s |}
      | _ => Ok s
      end
  | StepConsumer => consumer_step s
  end.

Fixpoint execute (sched : list action) (s : system) : result system :=
  match sched with
  | [] => Ok s
  | a :: sched' =>
      match step a s with
      | Ok s' => execute sched' s'
      | Panic m => Panic m
      end
  end.

Definition start (rb : RingBuffer) : system :=
  {| queue := rb; prod := PIdle; cons := CIdle; pushed := []; popped := [] |}.

(** A whole call of [Push], and of [Pop], with no step of the other agent
    in between. *)
Definition push_steps (item : T) : list action :=
  [CallPush item; StepProducer; StepProducer; StepProducer; StepProducer].

Definition pop_steps : list action :=
  [CallPop; StepConsumer; StepConsumer; StepConsumer; StepConsumer].

(** The schedule in which the calls of a history run one after the other,
    each to its end. *)
Definition schedule_of (ops : list op) : list action :=
  concat (map (fun o => match o with
                        | OpPush item => push_steps item
                        | OpPop => pop_steps
                        end) ops).

(** *** Invariants *)

(** The items written and not yet read: the slots from [tail] up to
    [head], in that order. *)
Definition pending (rb : RingBuffer) : list T :=
  (fun j => slot rb (u64 (tail rb + j)))
    <$> seqZ 0 (u64 (head rb - tail rb)).

(** What holds of every queue that [New] returned and [Push] and [Pop]
    have worked on. *)
Record wf (rb : RingBuffer) : Prop := mkWf {
  wf_size : size rb = 0 \/ exists k, 0 <= k <= 62 /\ size rb = 2 ^ k;
  wf_mask : mask rb = u64 (size rb - 1);
  wf_len : Z.of_nat (length (buffer rb)) = size rb;
  wf_head : 0 <= head rb < 2 ^ 64;
  wf_tail : 0 <= tail rb < 2 ^ 64;
  wf_count : u64 (head rb - tail rb) <= size rb
}.

(** The state of a sequential run: the queue is well formed, its indices
    count the successful calls modulo [2^64], and what was pushed is what
    was popped followed by what is still stored. *)
Definition inv (st : RingBuffer * log) : Prop :=
  let '(rb, (pushed, popped)) := st in
  wf rb /\
  head rb = u64 (Z.of_nat (length pushed)) /\
  tail rb = u64 (Z.of_nat (length popped)) /\
  pushed = popped ++ pending rb.

(** What the producer knows inside a call: it has the current [head] (no
    one else writes it); the [tail] it loaded may be behind the current
    one, so the queue holds at most as many items as it believes; once it
    has stored its item, the slot at [head] holds it and is not among the
    pending ones. *)
Definition producer_inv (rb : RingBuffer) (p : producer) : Prop :=
  match p with
  | PIdle | PCalled _ => True
  | PHead _ h => h = head rb
  | PTail _ h t => h = head rb /\ u64 (head rb - tail rb) <= u64 (h - t)
  | PStored item =>
      u64 (head rb - tail rb) < size rb /\ slot rb (head rb) = item
  end.

(** What the consumer knows inside a call: it has the current [tail]; the
    [head] it loaded may be behind the current one, so the queue holds at
    least as many items as it believes; the item it has loaded is the
    first pending one. *)
Definition consumer_inv (rb : RingBuffer) (c : consumer) : Prop :=
  match c with
  | CIdle | CCalled => True
  | CHead h =>
      0 <= h < 2 ^ 64 /\ u64 (h - tail rb) <= u64 (head rb - tail rb)
  | CTail h t =>
      0 <= h < 2 ^ 64 /\ t = tail rb /\
      u64 (h - t) <= u64 (head rb - tail rb)
  | CLoaded item =>
      1 <= u64 (head rb - tail rb) /\ slot rb (tail rb) = item
  end.

Definition system_inv (s : system) : Prop :=
  wf (queue s) /\
  pushed s = popped s ++ pending (queue s) /\
  producer_inv (queue s) (prod s) /\
  consumer_inv (queue s) (cons s).

(** *** Progress of a call

    How many steps of its own an agent still has to take, at most, before
    its call returns, and how many steps a schedule gives it. *)

Definition producer_rank (p : producer) : nat :=
  match p with
  | PIdle => 0
  | PStored _ => 1
  | PTail _ _ _ => 2
  | PHead _ _ => 3
  | PCalled _ => 4
  end.

Definition consumer_rank (c : consumer) : nat :=
  match c with
  | CIdle => 0
  | CLoaded _ => 1
  | CTail _ _ => 2
  | CHead _ => 3
  | CCalled => 4
  end.

Fixpoint producer_steps (sched : list action) : nat :=
  match sched with
  | [] => 0
  | StepProducer :: sched' => S (producer_steps sched')
  | _ :: sched' => producer_steps sched'
  end.

Fixpoint consumer_steps (sched : list action) : nat :=
  match sched with
  | [] => 0
  | StepConsumer :: sched' => S (consumer_steps sched')
  | _ :: sched' => consumer_steps sched'
  end.

(** A schedule in which no new call of [Push] (of [Pop]) is entered. *)
Definition no_new_push (sched : list action) : Prop :=
  Forall (fun a => match a with CallPush _ => False | _ => True end) sched.

Definition no_new_pop (sched : list action) : Prop :=
  Forall (fun a => match a with CallPop => False | _ => True end) sched.

End Model.

Arguments RingBuffer T : clear implicits.
Arguments op T : clear implicits.
Arguments log T : clear implicits.
Arguments producer T : clear implicits.
Arguments consumer T : clear implicits.
Arguments system T : clear implicits.
Arguments action T : clear implicits.

(** *** Concrete histories on a queue of integers *)

(** [Push 1; Push 2; Pop; Push 3; Pop; Pop] on a queue of capacity 4. *)
Definition short_history : list (op Z) :=
  [OpPush 1; OpPush 2; OpPop; OpPush 3; OpPop; OpPop].

Definition queue4 : RingBuffer Z :=
  {| buffer := [0; 0; 0; 0]; size := 4; mask := 3; head := 0; tail := 0 |}.

(** Five pushes on a queue of capacity 4: the fifth finds it full. *)
Definition full_history : list (op Z) :=
  [OpPush 1; OpPush 2; OpPush 3; OpPush 4; OpPush 5].

Definition full4 : RingBuffer Z :=
  {| buffer := [1; 2; 3; 4]; size := 4; mask := 3; head := 4; tail := 0 |}.

(** [2^64 - 1] rounds of push and pop, then one push. *)
Definition wrapping_history : list (op Z) :=
  push_pop 7 (Z.to_nat (2 ^ 64 - 1)) ++ [OpPush 7].

(** The consumer starts a [Pop] on the empty queue and loads [head];
    meanwhile the producer pushes 1 and 2; the consumer gives up on its
    stale view and pops twice. *)
Definition overlapping_schedule : list (action Z) :=
  [CallPop; StepConsumer; CallPush 1; StepProducer; StepProducer;
   StepConsumer; StepProducer; StepProducer; StepConsumer]
  ++ push_steps 2 ++ pop_steps ++ pop_steps.

(** What [New(0)] returns. *)
Definition queue_of_0 : RingBuffer Z :=
  {| buffer := []; size := 0; mask := 2 ^ 64 - 1; head := 0; tail := 0 |}.

(** [queue4] after [short_history]: empty again, both indices at 3. *)
Definition drained4 : RingBuffer Z :=
  {| buffer := [1; 2; 3; 0]; size := 4; mask := 3; head := 3; tail := 3 |}.

(** Both agents are in the middle of a call, each having loaded [head]. *)
Definition both_calling : list (action Z) :=
  [CallPop; StepConsumer; CallPush 1; StepProducer].

Definition both_called : system Z :=
  {| queue := queue4; prod := PHead 1 0; cons := CHead 0;
     pushed := []; popped := [] |}.

Definition both_stepping : list (action Z) :=
  [StepConsumer; StepProducer; StepProducer; StepConsumer; StepConsumer;
   StepProducer; StepProducer; StepConsumer].

Section Facts.

Context {T : Type} `{Zero T}.

Implicit Types (rb : RingBuffer T) (item : T).

(** *** Index arithmetic of a well-formed queue *)

Lemma wf_size_bound rb : wf rb -> 0 <= size rb < 2 ^ 63.
Proof.
  intros Hwf. destruct (wf_size rb Hwf) as [Hz | (k & Hk & Hsz)]; [lia|].
  rewrite Hsz.
  assert (0 < 2 ^ k) by (apply Z.pow_pos_nonneg; lia).
  assert (2 ^ k <= 2 ^ 62) by (apply Z.pow_le_mono_r; lia).
  lia.
Qed.

Lemma wf_index rb i :
  wf rb -> 0 < size rb -> Z.land i (mask rb) = i mod size rb.
Proof.
  intros Hwf Hpos. pose proof (wf_size_bound rb Hwf).
  destruct (wf_size rb Hwf) as [Hz | (k & Hk & Hsz)]; [lia|].
  rewrite (wf_mask rb Hwf), u64_small by lia.
  rewrite Hsz. apply land_mask_pow2. lia.
Qed.

Lemma wf_mod_u64 rb i :
  wf rb -> 0 < size rb -> u64 i mod size rb = i mod size rb.
Proof.
  intros Hwf Hpos.
  destruct (wf_size rb Hwf) as [Hz | (k & Hk & Hsz)]; [lia|].
  rewrite Hsz. apply mod_pow2_u64. lia.
Qed.

Lemma wf_index_in_bounds rb i :
  wf rb -> 0 < size rb -> in_bounds (Z.land i (mask rb)) (buffer rb) = true.
Proof.
  intros Hwf Hpos. rewrite wf_index by assumption.
  unfold in_bounds. rewrite (wf_len rb Hwf).
  pose proof (Z.mod_pos_bound i (size rb) Hpos).
  apply andb_true_iff. split; [apply Z.leb_le | apply Z.ltb_lt]; lia.
Qed.

(** Two slots less than [size] apart are different places. *)
Lemma wf_index_apart rb i j :
  wf rb -> 0 < size rb -> i <> j -> - size rb < i - j < size rb ->
  Z.to_nat (Z.land (u64 i) (mask rb)) <> Z.to_nat (Z.land (u64 j) (mask rb)).
Proof.
  intros Hwf Hpos Hne Hd.
  rewrite !wf_index, !wf_mod_u64 by assumption.
  intros Heq. apply Z2Nat.inj in Heq; try (apply Z.mod_pos_bound; lia).
  apply mod_eq_close in Heq; lia.
Qed.

(** The number of stored items after one more push, one more pop. *)
Lemma count_after_push rb :
  wf rb -> u64 (head rb - tail rb) < size rb ->
  u64 (u64 (head rb + 1) - tail rb) = u64 (head rb - tail rb) + 1.
Proof.
  intros Hwf Hroom. pose proof (wf_size_bound rb Hwf).
  pose proof (u64_range (head rb - tail rb)).
  rewrite u64_sub_l.
  replace (head rb + 1 - tail rb) with (head rb - tail rb + 1) by lia.
  rewrite <- u64_add_l. apply u64_small. lia.
Qed.

Lemma count_after_pop rb :
  1 <= u64 (head rb - tail rb) ->
  u64 (head rb - u64 (tail rb + 1)) = u64 (head rb - tail rb) - 1.
Proof.
  intros Hsome. pose proof (u64_range (head rb - tail rb)).
  rewrite u64_sub_r.
  replace (head rb - (tail rb + 1)) with (head rb - tail rb - 1) by lia.
  rewrite <- u64_sub_l. apply u64_small. lia.
Qed.

Lemma head_from_tail rb :
  wf rb -> u64 (tail rb + u64 (head rb - tail rb)) = head rb.
Proof.
  intros Hwf. rewrite u64_add_r.
  replace (tail rb + (head rb - tail rb)) with (head rb) by lia.
  apply u64_small. exact (wf_head rb Hwf).
Qed.

(** *** Storage updates and the pending items *)

Lemma length_pending rb :
  Z.of_nat (length (pending rb)) = u64 (head rb - tail rb).
Proof.
  unfold pending. rewrite length_fmap, length_seqZ.
  pose proof (u64_range (head rb - tail rb)). lia.
Qed.

(** A store into the slot at [head] of a queue that is not full leaves the
    stored items alone. *)
Lemma slot_after_store rb item j :
  wf rb -> u64 (head rb - tail rb) < size rb ->
  0 <= j < u64 (head rb - tail rb) ->
  slot (set_buffer rb (<[Z.to_nat (Z.land (head rb) (mask rb)) := item]>
                         (buffer rb)))
       (u64 (tail rb + j))
  = slot rb (u64 (tail rb + j)).
Proof.
  intros Hwf Hroom Hj. unfold slot. simpl. f_equal.
  apply list_lookup_insert_ne.
  rewrite <- (head_from_tail rb Hwf) at 1.
  apply wf_index_apart; try assumption; lia.
Qed.

Lemma slot_stored rb item :
  wf rb -> 0 < size rb ->
  slot (set_buffer rb (<[Z.to_nat (Z.land (head rb) (mask rb)) := item]>
                         (buffer rb)))
       (head rb)
  = item.
Proof.
  intros Hwf Hpos. unfold slot. simpl.
  rewrite list_lookup_insert_eq; [reflexivity|].
  rewrite wf_index by assumption.
  pose proof (Z.mod_pos_bound (head rb) (size rb) Hpos).
  pose proof (wf_len rb Hwf). lia.
Qed.

Lemma pending_after_store rb item :
  wf rb -> u64 (head rb - tail rb) < size rb ->
  pending (set_buffer rb (<[Z.to_nat (Z.land (head rb) (mask rb)) := item]>
                            (buffer rb)))
  = pending rb.
Proof.
  intros Hwf Hroom. unfold pending. simpl.
  apply list_fmap_ext. intros i j Hj.
  apply lookup_seqZ in Hj as [-> Hi].
  apply slot_after_store; try assumption. lia.
Qed.

(** Publishing the new [head] adds the slot at the old [head] to the
    pending items. *)
Lemma pending_after_push rb :
  wf rb -> u64 (head rb - tail rb) < size rb ->
  pending (set_head rb (u64 (head rb + 1)))
  = pending rb ++ [slot rb (head rb)].
Proof.
  intros Hwf Hroom. pose proof (u64_range (head rb - tail rb)).
  unfold pending. simpl. rewrite count_after_push by assumption.
  rewrite seqZ_app by lia. rewrite fmap_app. f_equal.
  change (seqZ (0 + u64 (head rb - tail rb)) 1)
    with [0 + u64 (head rb - tail rb)].
  simpl. unfold slot at 1. simpl. fold (slot rb (head rb)).
  rewrite head_from_tail by assumption. reflexivity.
Qed.

(** Publishing the new [tail] takes the slot at the old [tail] off the
    pending items. *)
Lemma pending_after_pop rb :
  wf rb -> 1 <= u64 (head rb - tail rb) ->
  pending rb = slot rb (tail rb) :: pending (set_tail rb (u64 (tail rb + 1))).
Proof.
  intros Hwf Hsome. unfold pending. simpl.
  rewrite count_after_pop by assumption.
  rewrite seqZ_cons by lia. simpl.
  rewrite Z.add_0_r, (u64_small (tail rb)) by exact (wf_tail rb Hwf).
  f_equal.
  replace (Z.succ 0) with (1 + 0) by lia.
  replace (Z.pred (u64 (head rb - tail rb)))
    with (u64 (head rb - tail rb) - 1) by lia.
  rewrite <- fmap_add_seqZ, <- list_fmap_compose.
  apply list_fmap_ext. intros i j _. simpl.
  unfold slot. simpl. rewrite u64_add_l. now rewrite Z.add_assoc.
Qed.

Lemma wf_set_buffer rb l :
  wf rb -> length l = length (buffer rb) -> wf (set_buffer rb l).
Proof.
  intros [] Hlen. constructor; simpl; try assumption. now rewrite Hlen.
Qed.

Lemma wf_set_head rb :
  wf rb -> u64 (head rb - tail rb) < size rb ->
  wf (set_head rb (u64 (head rb + 1))).
Proof.
  intros Hwf Hroom. pose proof (count_after_push rb Hwf Hroom).
  destruct Hwf. constructor; simpl; try assumption.
  - apply u64_range.
  - lia.
Qed.

Lemma wf_set_tail rb :
  wf rb -> 1 <= u64 (head rb - tail rb) ->
  wf (set_tail rb (u64 (tail rb + 1))).
Proof.
  intros Hwf Hsome. pose proof (count_after_pop rb Hsome).
  destruct Hwf. constructor; simpl; try assumption.
  - apply u64_range.
  - lia.
Qed.

(** *** The constructor *)

Lemma New_accepts_pow2 k :
  0 <= k <= 62 -> exists rb, New (2 ^ k) = Ok rb.
Proof.
  intros Hk. unfold New.
  assert (0 < 2 ^ k) by (apply Z.pow_pos_nonneg; lia).
  assert (2 ^ k <= 2 ^ 62) by (apply Z.pow_le_mono_r; lia).
  rewrite u64_small by lia.
  rewrite land_pred_pow2 by lia. simpl.
  destruct (Z.ltb_spec MaxInt (2 ^ k)); [unfold MaxInt in *; lia|].
  eauto.
Qed.

Lemma New_rejects n :
  0 < n < 2 ^ 64 -> ~ is_pow2 n -> New n = Panic "size must be power of 2".
Proof.
  intros Hn Hnp. unfold New.
  rewrite u64_small by lia.
  destruct (Z.land n (n - 1) =? 0) eqn:E; [|reflexivity].
  exfalso. apply Hnp. apply Z.eqb_eq in E.
  exists (Z.log2 n). split; [apply Z.log2_nonneg|].
  apply land_pred_zero_pow2; lia.
Qed.

Lemma New_wf n rb :
  0 <= n < 2 ^ 64 -> New n = Ok rb ->
  wf rb /\ size rb = n /\ head rb = 0 /\ tail rb = 0.
Proof.
  intros Hn HNew. unfold New in HNew.
  destruct (Z.land n (u64 (n - 1)) =? 0) eqn:E; [|discriminate].
  simpl in HNew.
  destruct (Z.ltb_spec MaxInt n) as [|Hmax]; [discriminate|].
  injection HNew as <-. apply Z.eqb_eq in E. unfold MaxInt in Hmax.
  split; [|auto]. constructor; simpl.
  - destruct (Z.eq_dec n 0) as [|Hne]; [now left | right].
    rewrite u64_small in E by lia.
    exists (Z.log2 n). split.
    + split; [apply Z.log2_nonneg|].
      assert (Z.log2 n < 63) by (apply Z.log2_lt_pow2; lia). lia.
    + apply land_pred_zero_pow2; lia.
  - reflexivity.
  - rewrite length_replicate. lia.
  - lia.
  - lia.
  - rewrite u64_small; lia.
Qed.

(** *** One call *)

Lemma Push_full rb item :
  size rb <= u64 (head rb - tail rb) -> Push rb item = Ok (rb, false).
Proof.
  intros Hfull. unfold Push.
  destruct (size rb <=? u64 (head rb - tail rb)) eqn:E; [reflexivity|].
  apply Z.leb_gt in E. lia.
Qed.

Lemma Push_room rb item :
  wf rb -> u64 (head rb - tail rb) < size rb ->
  exists rb',
    Push rb item = Ok (rb', true) /\ wf rb' /\
    size rb' = size rb /\
    head rb' = u64 (head rb + 1) /\ tail rb' = tail rb /\
    pending rb' = pending rb ++ [item].
Proof.
  intros Hwf Hroom.
  pose proof (u64_range (head rb - tail rb)) as Hn.
  assert (0 < size rb) as Hpos by lia.
  set (rb1 := set_buffer rb (<[Z.to_nat (Z.land (head rb) (mask rb)) := item]>
                               (buffer rb))).
  assert (wf rb1) as Hwf1
    by (apply wf_set_buffer; [assumption | apply length_insert]).
  exists (set_head rb1 (u64 (head rb + 1))).
  split; [|split; [|split; [|split; [|split]]]]; try reflexivity.
  - unfold Push.
    destruct (size rb <=? u64 (head rb - tail rb)) eqn:E;
      [apply Z.leb_le in E; lia|].
    now rewrite wf_index_in_bounds.
  - now apply (wf_set_head rb1).
  - change (head rb) with (head rb1).
    rewrite (pending_after_push rb1) by assumption.
    unfold rb1 at 1 2. rewrite pending_after_store by assumption.
    change (head rb1) with (head rb). unfold rb1.
    rewrite (slot_stored rb item) by assumption.
    reflexivity.
Qed.

Lemma Pop_empty rb :
  head rb <= tail rb -> Pop rb = Ok (rb, (zero, false)).
Proof.
  intros Hempty. unfold Pop.
  destruct (head rb <=? tail rb) eqn:E; [reflexivity|].
  apply Z.leb_gt in E. lia.
Qed.

Lemma Pop_some rb :
  wf rb -> tail rb < head rb ->
  exists rb' item,
    Pop rb = Ok (rb', (item, true)) /\ wf rb' /\
    size rb' = size rb /\
    head rb' = head rb /\ tail rb' = u64 (tail rb + 1) /\
    pending rb = item :: pending rb'.
Proof.
  intros Hwf Hlt.
  pose proof (wf_head rb Hwf) as Hh. pose proof (wf_tail rb Hwf) as Ht.
  pose proof (wf_count rb Hwf) as Hc.
  assert (u64 (head rb - tail rb) = head rb - tail rb) as Hn
    by (apply u64_small; lia).
  assert (0 < size rb) as Hpos by lia.
  exists (set_tail rb (u64 (tail rb + 1))), (slot rb (tail rb)).
  split; [|split; [|split; [|split; [|split]]]]; try reflexivity.
  - unfold Pop.
    destruct (head rb <=? tail rb) eqn:E; [apply Z.leb_le in E; lia|].
    now rewrite wf_index_in_bounds.
  - apply wf_set_tail; [assumption|lia].
  - apply pending_after_pop; [assumption|lia].
Qed.

(** *** Sequential histories *)

Lemma run_app (ops1 ops2 : list (op T)) st :
  run (ops1 ++ ops2) st =
  match run ops1 st with
  | Ok st' => run ops2 st'
  | Panic m => Panic m
  end.
Proof.
  revert st. induction ops1 as [|o ops1 IH]; intros st; simpl; [reflexivity|].
  destruct (run_op o st); [apply IH | reflexivity].
Qed.

Lemma inv_fresh n rb :
  0 <= n < 2 ^ 64 -> New n = Ok rb -> inv (rb, ([], [])) /\ size rb = n.
Proof.
  intros Hn HNew. destruct (New_wf n rb Hn HNew) as (Hwf & Hs & Hh & Ht).
  split; [|assumption].
  split; [assumption|]. rewrite Hh, Ht. split; [|split]; try reflexivity.
  unfold pending. rewrite Hh, Ht. reflexivity.
Qed.

Lemma run_op_inv (o : op T) st :
  inv st ->
  exists st', run_op o st = Ok st' /\ inv st' /\ size (fst st') = size (fst st).
Proof.
  destruct st as [rb [pu po]]. intros (Hwf & Hh & Ht & Hlog).
  destruct o as [item|]; simpl.
  - destruct (Z_lt_le_dec (u64 (head rb - tail rb)) (size rb)) as [Hroom|Hfull].
    + destruct (Push_room rb item Hwf Hroom)
        as (rb' & -> & Hwf' & Hs' & Hh' & Ht' & Hp').
      eexists. split; [reflexivity|]. split; [|assumption].
      split; [assumption|]. split; [|split].
      * rewrite Hh', Hh, u64_add_l, length_app. simpl. f_equal. lia.
      * congruence.
      * rewrite Hp', Hlog at 1. now rewrite app_assoc.
    + rewrite Push_full by assumption.
      eexists. split; [reflexivity|]. split; [|reflexivity].
      split; [assumption|]. auto.
  - destruct (Z_lt_le_dec (tail rb) (head rb)) as [Hsome|Hempty].
    + destruct (Pop_some rb Hwf Hsome)
        as (rb' & item & -> & Hwf' & Hs' & Hh' & Ht' & Hp').
      eexists. split; [reflexivity|]. split; [|assumption].
      split; [assumption|]. split; [|split].
      * congruence.
      * rewrite Ht', Ht, u64_add_l, length_app. simpl. f_equal. lia.
      * rewrite Hlog, Hp'. now rewrite <- app_assoc.
    + rewrite Pop_empty by assumption.
      eexists. split; [reflexivity|]. split; [|reflexivity].
      split; [assumption|]. auto.
Qed.

Lemma run_inv (ops : list (op T)) st :
  inv st ->
  exists st', run ops st = Ok st' /\ inv st' /\ size (fst st') = size (fst st).
Proof.
  revert st. induction ops as [|o ops IH]; intros st Hinv; simpl.
  - eauto.
  - destruct (run_op_inv o st Hinv) as (st1 & -> & Hinv1 & Hs1).
    destruct (IH st1 Hinv1) as (st2 & Hrun & Hinv2 & Hs2).
    exists st2. split; [assumption|]. split; [assumption|congruence].
Qed.

Lemma run_total n rb (ops : list (op T)) :
  0 <= n < 2 ^ 64 -> New n = Ok rb ->
  exists st, run ops (rb, ([], [])) = Ok st.
Proof.
  intros Hn HNew. destruct (inv_fresh n rb Hn HNew) as [Hinv _].
  destruct (run_inv ops _ Hinv) as (st & Hrun & _). eauto.
Qed.

(** As long as fewer than [2^64] pushes have succeeded the indices are the
    plain counts, and [tail] has not passed [head]. *)
Lemma inv_unwrapped rb (pu po : list T) :
  inv (rb, (pu, po)) ->
  Z.of_nat (length pu) < 2 ^ 64 ->
  head rb = Z.of_nat (length pu) /\
  tail rb = Z.of_nat (length po) /\
  tail rb <= head rb /\
  u64 (head rb - tail rb) = head rb - tail rb.
Proof.
  intros (Hwf & Hh & Ht & Hlog) Hlt.
  assert (length pu = length po + length (pending rb))%nat as Hlen
    by (rewrite Hlog at 1; apply length_app).
  rewrite u64_small in Hh by lia. rewrite u64_small in Ht by lia.
  repeat split; try assumption; try lia.
  apply u64_small. lia.
Qed.

(** Rounds of one push and one pop on an empty queue keep it empty and
    advance both indices together, until the head index wraps. *)
Lemma run_push_pop item k : forall st,
  inv st -> 0 < size (fst st) -> head (fst st) = tail (fst st) ->
  head (fst st) + Z.of_nat k < 2 ^ 64 ->
  exists st',
    run (push_pop item k) st = Ok st' /\ inv st' /\
    size (fst st') = size (fst st) /\
    head (fst st') = head (fst st) + Z.of_nat k /\
    tail (fst st') = head (fst st) + Z.of_nat k.
Proof.
  induction k as [|k IH]; intros [rb [pu po]] Hinv Hpos Hemp Hlt;
    simpl in Hpos, Hemp, Hlt |- *.
  - eexists. split; [reflexivity|]. split; [assumption|]. simpl. lia.
  - pose proof Hinv as (Hwf & _).
    pose proof (wf_head rb Hwf) as Hh.
    assert (u64 (head rb - tail rb) < size rb) as Hroom.
    { rewrite Hemp, Z.sub_diag. unfold u64. rewrite Z.mod_0_l; lia. }
    destruct (run_op_inv (OpPush item) (rb, (pu, po)) Hinv)
      as (st1 & Hst1 & Hinv1 & _).
    simpl in Hst1.
    destruct (Push_room rb item Hwf Hroom)
      as (rb1 & HPush & Hwf1 & Hs1 & Hh1 & Ht1 & _).
    rewrite HPush in Hst1 |- *. injection Hst1 as <-. simpl.
    rewrite u64_small in Hh1 by lia.
    destruct (run_op_inv OpPop (rb1, (pu ++ [item], po)) Hinv1)
      as (st2 & Hst2 & Hinv2 & _).
    simpl in Hst2.
    destruct (Pop_some rb1 Hwf1 ltac:(lia))
      as (rb2 & x & HPop & Hwf2 & Hs2 & Hh2 & Ht2 & _).
    rewrite HPop in Hst2 |- *. injection Hst2 as <-. simpl.
    rewrite u64_small in Ht2 by lia.
    destruct (IH (rb2, (pu ++ [item], po ++ [x])) Hinv2)
      as (st' & Hrun & Hinv' & Hs' & Hh' & Ht'); simpl; try lia.
    exists st'. simpl in *. split; [assumption|]. split; [assumption|]. lia.
Qed.

(** After [2^64 - 1] rounds of push and pop and one more push the head index
    has wrapped to [0] while the tail index is [2^64 - 1]. *)
Lemma run_wrapped item (k : nat) n rb0 :
  Z.of_nat k = 2 ^ 64 - 1 -> 0 < n < 2 ^ 64 -> New n = Ok rb0 ->
  exists rb lg,
    run (push_pop item k ++ [OpPush item]) (rb0, ([], [])) = Ok (rb, lg) /\
    head rb = 0 /\ tail rb = 2 ^ 64 - 1.
Proof.
  intros Hk Hn HNew.
  destruct (New_wf n rb0 ltac:(lia) HNew) as (_ & Hs0 & Hh0 & Ht0).
  destruct (inv_fresh n rb0 ltac:(lia) HNew) as [Hinv _].
  destruct (run_push_pop item k (rb0, ([], [])) Hinv)
    as ([rb1 lg1] & Hrun & Hinv1 & Hs1 & Hh1 & Ht1); simpl in *; try lia.
  rewrite run_app, Hrun. simpl.
  destruct lg1 as [pu po]. pose proof Hinv1 as (Hwf1 & _).
  assert (u64 (head rb1 - tail rb1) < size rb1) as Hroom.
  { rewrite Hh1, Ht1, Z.sub_diag. unfold u64. rewrite Z.mod_0_l; lia. }
  destruct (Push_room rb1 item Hwf1 Hroom)
    as (rb2 & -> & _ & _ & Hh2 & Ht2 & _).
  exists rb2. eexists. split; [reflexivity|].
  rewrite Hh2, Ht2, Hh1, Ht1, Hh0, Hk. split; [reflexivity|lia].
Qed.

(** *** Interleaved steps *)

Ltac keep_inv :=
  (split; [|split; [|split]]); simpl;
  try assumption; try exact I; try reflexivity.

Lemma execute_app (sched1 sched2 : list (action T)) s :
  execute (sched1 ++ sched2) s =
  match execute sched1 s with
  | Ok s' => execute sched2 s'
  | Panic m => Panic m
  end.
Proof.
  revert s. induction sched1 as [|a sched1 IH]; intros s; simpl;
    [reflexivity|].
  destruct (step a s); [apply IH | reflexivity].
Qed.

Lemma system_inv_start n rb :
  0 <= n < 2 ^ 64 -> New n = Ok rb -> system_inv (start rb).
Proof.
  intros Hn HNew. destruct (New_wf n rb Hn HNew) as (Hwf & _ & Hh & Ht).
  split; [assumption|]. split; [|split; exact I].
  simpl. unfold pending. rewrite Hh, Ht. reflexivity.
Qed.

Lemma producer_step_inv (s : system T) :
  system_inv s -> exists s', producer_step s = Ok s' /\ system_inv s'.
Proof.
  destruct s as [q p c pu po]. intros (Hwf & Hlog & Hp & Hc).
  simpl in Hwf, Hlog, Hp, Hc.
  unfold producer_step; simpl.
  destruct p as [|item|item h|item h t|item]; simpl in Hp.
  - eexists. split; [reflexivity|]. keep_inv.
  - eexists. split; [reflexivity|]. keep_inv.
  - eexists. split; [reflexivity|]. split; [assumption|].
    split; [assumption|]. split; [|assumption].
    simpl. subst h. split; [reflexivity|lia].
  - destruct Hp as [-> Hview].
    destruct (Z.leb_spec (size q) (u64 (head q - t))) as [Hfull|Hroom].
    { eexists. split; [reflexivity|]. keep_inv. }
    assert (u64 (head q - tail q) < size q) as Hd by lia.
    pose proof (u64_range (head q - tail q)) as Hrange.
    assert (0 < size q) as Hpos by lia.
    rewrite wf_index_in_bounds by assumption.
    eexists. split; [reflexivity|].
    split; [|split; [|split]]; simpl.
    + apply wf_set_buffer; [assumption | apply length_insert].
    + now rewrite pending_after_store.
    + split; [assumption | now apply slot_stored].
    + destruct c as [|  |h'|h' t'|x]; simpl in Hc |- *; try assumption.
      destruct Hc as [Hsome <-]. split; [assumption|].
      pose proof (slot_after_store q item 0 Hwf Hd ltac:(lia)) as Hslot.
      rewrite Z.add_0_r, u64_small in Hslot by exact (wf_tail q Hwf).
      exact Hslot.
  - destruct Hp as [Hd <-].
    pose proof (count_after_push q Hwf Hd) as Hcount.
    eexists. split; [reflexivity|].
    split; [|split; [|split]]; simpl.
    + now apply wf_set_head.
    + rewrite pending_after_push, Hlog by assumption.
      now rewrite app_assoc.
    + exact I.
    + destruct c as [|  |h'|h' t'|x]; simpl in Hc |- *; try assumption.
      * destruct Hc as [Hr Hle]. split; [assumption|]. lia.
      * destruct Hc as (Hr & -> & Hle).
        split; [assumption|]. split; [reflexivity|]. lia.
      * destruct Hc as [Hsome Hslot]. split; [lia | exact Hslot].
Qed.

Lemma consumer_step_inv (s : system T) :
  system_inv s -> exists s', consumer_step s = Ok s' /\ system_inv s'.
Proof.
  destruct s as [q p c pu po]. intros (Hwf & Hlog & Hp & Hc).
  simpl in Hwf, Hlog, Hp, Hc.
  unfold consumer_step; simpl.
  destruct c as [|  |h|h t|item]; simpl in Hc.
  - eexists. split; [reflexivity|]. keep_inv.
  - eexists. split; [reflexivity|]. split; [assumption|].
    split; [assumption|]. split; [assumption|].
    simpl. split; [exact (wf_head q Hwf) | lia].
  - eexists. split; [reflexivity|]. split; [assumption|].
    split; [assumption|]. split; [assumption|].
    simpl. destruct Hc as [Hr Hle]. auto.
  - destruct Hc as (Hr & -> & Hle).
    destruct (Z.leb_spec h (tail q)) as [Hempty|Hsome].
    { eexists. split; [reflexivity|]. keep_inv. }
    pose proof (wf_tail q Hwf) as Ht.
    assert (u64 (h - tail q) = h - tail q) as Hview by (apply u64_small; lia).
    pose proof (wf_count q Hwf) as Hcount.
    assert (0 < size q) as Hpos by lia.
    rewrite wf_index_in_bounds by assumption.
    eexists. split; [reflexivity|]. split; [assumption|].
    split; [assumption|]. split; [assumption|].
    simpl. split; [lia | reflexivity].
  - destruct Hc as [Hsome <-].
    pose proof (count_after_pop q Hsome) as Hcount.
    eexists. split; [reflexivity|].
    split; [|split; [|split]]; simpl.
    + now apply wf_set_tail.
    + rewrite Hlog, (pending_after_pop q) by assumption.
      now rewrite <- app_assoc.
    + destruct p as [|x|x h'|x h' t'|x]; simpl in Hp |- *; try assumption.
      * destruct Hp as [-> Hle]. split; [reflexivity|]. lia.
      * destruct Hp as [Hroom Hslot]. split; [lia | exact Hslot].
    + exact I.
Qed.

Lemma step_inv (a : action T) s :
  system_inv s -> exists s', step a s = Ok s' /\ system_inv s'.
Proof.
  intros Hinv. destruct a as [item| | |]; simpl.
  - destruct s as [q p c pu po]. destruct Hinv as (Hwf & Hlog & Hp & Hc).
    destruct p; simpl; eexists; (split; [reflexivity|]); keep_inv.
  - now apply producer_step_inv.
  - destruct s as [q p c pu po]. destruct Hinv as (Hwf & Hlog & Hp & Hc).
    destruct c; simpl; eexists; (split; [reflexivity|]); keep_inv.
  - now apply consumer_step_inv.
Qed.

Lemma execute_inv (sched : list (action T)) s :
  system_inv s -> exists s', execute sched s = Ok s' /\ system_inv s'.
Proof.
  revert s. induction sched as [|a sched IH]; intros s Hinv; simpl.
  - eauto.
  - destruct (step_inv a s Hinv) as (s1 & -> & Hinv1). now apply IH.
Qed.

(** The steps of one call, run without interruption, do what the call
    does. *)
Lemma push_steps_call (s : system T) item :
  prod s = PIdle ->
  execute (push_steps item) s =
  match Push (queue s) item with
  | Ok (rb', true) =>
      Ok {| queue := rb'; prod := PIdle; cons := cons s;
            pushed := pushed s ++ [item]; popped := popped s |}
  | Ok (rb', false) =>
      Ok {| queue := rb'; prod := PIdle; cons := cons s;
            pushed := pushed s; popped := popped s |}
  | Panic m => Panic m
  end.
Proof.
  destruct s as [q p c pu po]. simpl. intros ->.
  unfold Push, producer_step. simpl.
  destruct (size q <=? u64 (head q - tail q)); simpl; [reflexivity|].
  destruct (in_bounds _ _); reflexivity.
Qed.

Lemma pop_steps_call (s : system T) :
  cons s = CIdle ->
  execute pop_steps s =
  match Pop (queue s) with
  | Ok (rb', (item, true)) =>
      Ok {| queue := rb'; prod := prod s; cons := CIdle;
            pushed := pushed s; popped := popped s ++ [item] |}
  | Ok (rb', (_, false)) =>
      Ok {| queue := rb'; prod := prod s; cons := CIdle;
            pushed := pushed s; popped := popped s |}
  | Panic m => Panic m
  end.
Proof.
  destruct s as [q p c pu po]. simpl. intros ->.
  unfold Pop, consumer_step. simpl.
  destruct (head q <=? tail q); simpl; [reflexivity|].
  destruct (in_bounds _ _); reflexivity.
Qed.

(** A sequential history is the schedule that runs its calls one after the
    other. *)
Lemma run_as_schedule (ops : list (op T)) : forall rb pu po,
  execute (schedule_of ops)
    {| queue := rb; prod := PIdle; cons := CIdle;
       pushed := pu; popped := po |} =
  match run ops (rb, (pu, po)) with
  | Ok (rb', (pu', po')) =>
      Ok {| queue := rb'; prod := PIdle; cons := CIdle;
            pushed := pu'; popped := po' |}
  | Panic m => Panic m
  end.
Proof.
  induction ops as [|o ops IH]; intros rb pu po; [reflexivity|].
  unfold schedule_of in *. cbn [map concat run].
  rewrite execute_app.
  destruct o as [item|]; cbn [run_op].
  - rewrite push_steps_call by reflexivity. cbn [queue cons pushed popped].
    destruct (Push rb item) as [[rb' []]|m]; [apply IH..|reflexivity].
  - rewrite pop_steps_call by reflexivity. cbn [queue prod pushed popped].
    destruct (Pop rb) as [[rb' [item []]]|m]; [apply IH..|reflexivity].
Qed.

(** *** The queue's properties *)

(** Sequential histories: every history runs to its end, and what was
    pushed is what was popped followed by what is still stored. *)
Lemma fifo_order_sequential n rb (ops : list (op T)) :
  0 <= n < 2 ^ 64 -> New n = Ok rb ->
  exists rb' pu po,
    run ops (rb, ([], [])) = Ok (rb', (pu, po)) /\
    pu = po ++ pending rb' /\
    (head rb' = tail rb' -> po = pu).
Proof.
  intros Hn HNew. destruct (inv_fresh n rb Hn HNew) as [Hinv _].
  destruct (run_inv ops _ Hinv) as ([rb' [pu po]] & Hrun & Hinv' & _).
  exists rb', pu, po. split; [assumption|].
  destruct Hinv' as (_ & _ & _ & Hlog). split; [assumption|].
  intros Heq. rewrite Hlog.
  unfold pending. rewrite Heq, Z.sub_diag. simpl. now rewrite app_nil_r.
Qed.



(** C8, amended.  After every history on a queue of capacity [n] the
    wrapping difference [head - tail] is at most [n]; while fewer than
    [2^64] pushes have succeeded, [tail <= head] and the plain difference is
    at most [n] as well. *)
Theorem index_invariant n rb0 (ops : list (op T)) rb pu po :
  0 <= n < 2 ^ 64 -> New n = Ok rb0 ->
  run ops (rb0, ([], [])) = Ok (rb, (pu, po)) ->
  u64 (head rb - tail rb) <= n /\
  (Z.of_nat (length pu) < 2 ^ 64 ->
   tail rb <= head rb /\ head rb - tail rb <= n).
Proof.
  intros Hn HNew Hrun. destruct (inv_fresh n rb0 Hn HNew) as [Hinv Hs0].
  destruct (run_inv ops _ Hinv) as (st & Hrun' & Hinv' & Hs).
  rewrite Hrun in Hrun'. injection Hrun' as <-. simpl in Hs.
  pose proof Hinv' as (Hwf & _).
  pose proof (wf_count rb Hwf) as Hc.
  split; [lia|]. intros Hlt.
  destruct (inv_unwrapped rb pu po Hinv' Hlt) as (_ & _ & Hle & Hd).
  lia.
Qed.

(** C9 at size [0]: the test [size & (size-1) != 0] lets [0] through, which
    is not a power of two, and [New] returns a queue of capacity [0] whose
    mask is [2^64 - 1]. *)
Theorem New_zero_returns_queue :
  ~ is_pow2 0 /\
  New 0 = Ok {| buffer := []; size := 0; mask := 2 ^ 64 - 1;
                head := 0; tail := 0 |}.
Proof.
  split; [|reflexivity].
  intros (k & Hk & Hz).
  assert (0 < 2 ^ k) by (apply Z.pow_pos_nonneg; lia). lia.
Qed.

(** *** More on the constructor and on sequential use *)


(** Pushes alone fill the queue up to its capacity and no further. *)
Lemma run_pushes (items : list T) : forall rb pu,
  inv (rb, (pu, [])) ->
  exists rb',
    run (OpPush <$> items) (rb, (pu, [])) =
    Ok (rb', (pu ++ take (Z.to_nat (size rb) - length pu) items, [])) /\
    inv (rb', (pu ++ take (Z.to_nat (size rb) - length pu) items, [])).
Proof.
  induction items as [|item items IH]; intros rb pu Hinv.
  - exists rb. rewrite take_nil, app_nil_r. split; [reflexivity|assumption].
  - pose proof Hinv as (Hwf & Hh & Ht & Hlog).
    pose proof (length_pending rb) as Hlen.
    simpl in Hlog. rewrite <- Hlog in Hlen.
    pose proof (wf_size_bound rb Hwf) as Hsz.
    destruct (run_op_inv (OpPush item) (rb, (pu, [])) Hinv)
      as (st1 & Hst1 & Hinv1 & Hs1).
    cbn [fmap list_fmap run]. change (list_fmap T (op T) OpPush items)
      with (OpPush <$> items).
    rewrite Hst1. simpl in Hst1.
    destruct (Z_lt_le_dec (u64 (head rb - tail rb)) (size rb)) as [Hroom|Hfull].
    + destruct (Push_room rb item Hwf Hroom) as (rb1 & HPush & _ & Hsize1 & _).
      rewrite HPush in Hst1. injection Hst1 as <-.
      destruct (IH rb1 (pu ++ [item]) Hinv1) as (rb' & Hrun & Hinv').
      rewrite Hsize1, length_app in Hrun, Hinv'. simpl in Hrun, Hinv'.
      replace (Z.to_nat (size rb) - length pu)%nat
        with (S (Z.to_nat (size rb) - (length pu + 1)))%nat by lia.
      simpl. rewrite <- app_assoc in Hrun, Hinv'. simpl in Hrun, Hinv'.
      exists rb'. split; assumption.
    + rewrite Push_full in Hst1 by assumption. injection Hst1 as <-.
      destruct (IH rb pu Hinv) as (rb' & Hrun & Hinv').
      replace (Z.to_nat (size rb) - length pu)%nat with 0%nat in * by lia.
      simpl in *. exists rb'. split; assumption.
Qed.

(** X2. A fresh queue of capacity [n] takes the first [n] of any sequence
    of pushes and refuses the rest; the items it took are the pending
    ones, in order. *)
Theorem fresh_queue_fills n rb (items : list T) :
  0 <= n < 2 ^ 64 -> New n = Ok rb ->
  exists rb',
    run (OpPush <$> items) (rb, ([], [])) =
      Ok (rb', (take (Z.to_nat n) items, [])) /\
    pending rb' = take (Z.to_nat n) items.
Proof.
  intros Hn HNew. destruct (inv_fresh n rb Hn HNew) as [Hinv Hs].
  destruct (run_pushes items rb [] Hinv) as (rb' & Hrun & Hinv').
  simpl in Hrun, Hinv'. rewrite Hs, Nat.sub_0_r in Hrun, Hinv'.
  exists rb'. split; [assumption|].
  destruct Hinv' as (_ & _ & _ & Hlog). simpl in Hlog. now symmetry.
Qed.

(** X3. Round trip: in a state reached by a history in which fewer than
    [2^64 - 1] pushes have succeeded, on an empty queue of capacity at
    least 1, [Push(item)] succeeds, the [Pop] that follows returns that
    very item, and the queue is empty again. *)
Theorem push_then_pop n rb0 (ops : list (op T)) rb pu po item :
  0 < n < 2 ^ 64 -> New n = Ok rb0 ->
  run ops (rb0, ([], [])) = Ok (rb, (pu, po)) ->
  head rb = tail rb ->
  Z.of_nat (length pu) < 2 ^ 64 - 1 ->
  exists rb1 rb2,
    Push rb item = Ok (rb1, true) /\
    Pop rb1 = Ok (rb2, (item, true)) /\
    head rb2 = tail rb2 /\ pending rb2 = [].
Proof.
  intros Hn HNew Hrun Hempty Hlt.
  destruct (inv_fresh n rb0 ltac:(lia) HNew) as [Hinv0 Hs0].
  destruct (run_inv ops _ Hinv0) as (st & Hrun' & Hinv & Hs).
  rewrite Hrun in Hrun'. injection Hrun' as <-. simpl in Hs.
  pose proof Hinv as (Hwf & _).
  destruct (inv_unwrapped rb pu po Hinv ltac:(lia)) as (Hh & _ & _ & _).
  assert (pending rb = []) as Hnone.
  { unfold pending. rewrite Hempty, Z.sub_diag. reflexivity. }
  assert (u64 (head rb - tail rb) < size rb) as Hroom.
  { rewrite Hempty, Z.sub_diag. unfold u64. rewrite Z.mod_0_l; lia. }
  destruct (Push_room rb item Hwf Hroom)
    as (rb1 & HPush & Hwf1 & _ & Hh1 & Ht1 & Hp1).
  rewrite u64_small in Hh1 by lia.
  destruct (Pop_some rb1 Hwf1 ltac:(lia))
    as (rb2 & x & HPop & Hwf2 & _ & Hh2 & Ht2 & Hp2).
  rewrite Hp1, Hnone in Hp2. simpl in Hp2. injection Hp2 as <- Hnone2.
  exists rb1, rb2. split; [assumption|]. split; [assumption|].
  split; [|now symmetry].
  rewrite Hh2, Ht2, Hh1, Ht1, Hempty. symmetry. apply u64_small.
  pose proof (wf_tail rb Hwf). lia.
Qed.

(** X4. A queue of capacity [0] (what [New(0)] returns) is inert: every
    history leaves it as it was, no [Push] succeeds and no [Pop] returns an
    item. *)
Theorem zero_capacity_inert rb (ops : list (op T)) :
  New 0 = Ok rb -> run ops (rb, ([], [])) = Ok (rb, ([], [])).
Proof.
  intros HNew. destruct (New_wf 0 rb ltac:(lia) HNew) as (_ & Hs & Hh & Ht).
  induction ops as [|o ops IH]; [reflexivity|].
  cbn [run]. destruct o as [item|]; cbn [run_op].
  - rewrite Push_full; [exact IH|].
    rewrite Hs. apply u64_range.
  - rewrite Pop_empty by lia. exact IH.
Qed.

(** *** Calls finish *)

Lemma producer_step_rank (s s' : system T) :
  producer_step s = Ok s' ->
  (producer_rank (prod s') <= producer_rank (prod s) - 1)%nat /\
  cons s' = cons s.
Proof.
  destruct s as [q p c pu po]. unfold producer_step. simpl.
  destruct p as [|item|item h|item h t|item]; simpl;
    repeat match goal with
           | |- context [if ?b then _ else _] => destruct b
           end;
    intros Heq; try discriminate Heq; injection Heq as <-; simpl;
    (split; [lia|reflexivity]).
Qed.

Lemma consumer_step_rank (s s' : system T) :
  consumer_step s = Ok s' ->
  (consumer_rank (cons s') <= consumer_rank (cons s) - 1)%nat /\
  prod s' = prod s.
Proof.
  destruct s as [q p c pu po]. unfold consumer_step. simpl.
  destruct c as [| |h|h t|item]; simpl;
    repeat match goal with
           | |- context [if ?b then _ else _] => destruct b
           end;
    intros Heq; try discriminate Heq; injection Heq as <-; simpl;
    (split; [lia|reflexivity]).
Qed.

Lemma execute_ranks (sched : list (action T)) : forall s,
  system_inv s ->
  exists s',
    execute sched s = Ok s' /\ system_inv s' /\
    (no_new_push sched ->
     (producer_rank (prod s')
      <= producer_rank (prod s) - producer_steps sched)%nat) /\
    (no_new_pop sched ->
     (consumer_rank (cons s')
      <= consumer_rank (cons s) - consumer_steps sched)%nat).
Proof.
  induction sched as [|a sched IH]; intros s Hinv.
  - exists s. split; [reflexivity|]. split; [assumption|]. simpl. lia.
  - destruct (step_inv a s Hinv) as (s1 & Hstep & Hinv1).
    destruct (IH s1 Hinv1) as (s' & Hrun & Hinv' & Hp & Hc).
    exists s'. cbn [execute]. rewrite Hstep.
    split; [assumption|]. split; [assumption|].
    split; intros Hno; inversion Hno as [|? ? Ha Hrest]; subst.
    + (* the producer's rank *)
      specialize (Hp Hrest). clear Hc.
      destruct a as [item| | |]; simpl in Hstep |- *.
      * contradiction.
      * apply producer_step_rank in Hstep as [Hr _]. lia.
      * destruct (cons s); injection Hstep as <-; simpl in Hp; lia.
      * apply consumer_step_rank in Hstep as [_ Heq]. rewrite Heq in Hp. lia.
    + (* the consumer's rank *)
      specialize (Hc Hrest). clear Hp.
      destruct a as [item| | |]; simpl in Hstep |- *.
      * destruct (prod s); injection Hstep as <-; simpl in Hc; lia.
      * apply producer_step_rank in Hstep as [_ Heq]. rewrite Heq in Hc. lia.
      * contradiction.
      * apply consumer_step_rank in Hstep as [Hr _]. lia.
Qed.

(** X5. Neither call waits for the other agent.  In any state that a
    schedule reaches from a fresh queue, a schedule that gives the producer
    four steps and enters no new [Push] runs without panic and ends with
    the producer out of its call, whatever the consumer does in between;
    and the same for the consumer and [Pop]. *)
Theorem calls_finish n rb (before sched : list (action T)) s :
  0 <= n < 2 ^ 64 -> New n = Ok rb ->
  execute before (start rb) = Ok s ->
  exists s',
    execute sched s = Ok s' /\
    (no_new_push sched -> (4 <= producer_steps sched)%nat ->
     prod s' = PIdle) /\
    (no_new_pop sched -> (4 <= consumer_steps sched)%nat ->
     cons s' = CIdle).
Proof.
  intros Hn HNew Hbefore.
  destruct (execute_inv before (start rb) (system_inv_start n rb Hn HNew))
    as (s0 & Hrun0 & Hinv).
  rewrite Hbefore in Hrun0. injection Hrun0 as <-.
  destruct (execute_ranks sched s Hinv) as (s' & Hrun & _ & Hp & Hc).
  exists s'. split; [assumption|]. split.
  - intros Hno Hsteps. specialize (Hp Hno).
    assert (producer_rank (prod s) <= 4)%nat by (destruct (prod s); simpl; lia).
    destruct (prod s'); simpl in Hp; try reflexivity; lia.
  - intros Hno Hsteps. specialize (Hc Hno).
    assert (consumer_rank (cons s) <= 4)%nat by (destruct (cons s); simpl; lia).
    destruct (cons s'); simpl in Hc; try reflexivity; lia.
Qed.

End Facts.

(** *** The concrete histories *)

Example short_history_runs :
  run short_history (queue4, ([], [])) =
  Ok ({| buffer := [1; 2; 3; 0]; size := 4; mask := 3; head := 3; tail := 3 |},
      ([1; 2; 3], [1; 2; 3])).
Proof. reflexivity. Qed.

Example full_history_runs :
  run full_history (queue4, ([], [])) = Ok (full4, ([1; 2; 3; 4], [])).
Proof. reflexivity. Qed.

Example pop_from_full4 :
  Pop full4 =
  Ok ({| buffer := [1; 2; 3; 4]; size := 4; mask := 3; head := 4; tail := 1 |},
      (1, true)).
Proof. reflexivity. Qed.

Example New_4 : New 4 = Ok queue4.
Proof. reflexivity. Qed.

Example New_rejects_6 : @New Z _ 6 = Panic "size must be power of 2".
Proof. reflexivity. Qed.

Example New_rejects_2_63 : @New Z _ (2 ^ 63) = Panic "makeslice: len out of range".
Proof. reflexivity. Qed.

Example overlapping_schedule_runs :
  execute overlapping_schedule (start queue4) =
  Ok {| queue := {| buffer := [1; 2; 0; 0]; size := 4; mask := 3;
                    head := 2; tail := 2 |};
        prod := PIdle; cons := CIdle;
        pushed := [1; 2]; popped := [1; 2] |}.
Proof. reflexivity. Qed.



Lemma index_invariant_witness :
  u64 (head full4 - tail full4) <= 4 /\
  (Z.of_nat (length [1; 2; 3; 4]) < 2 ^ 64 ->
   tail full4 <= head full4 /\ head full4 - tail full4 <= 4).
Proof.
  apply (index_invariant 4 queue4 full_history full4 [1; 2; 3; 4] []);
    [lia | reflexivity | reflexivity].
Defined.


(** C8 as stated fails once the head index has wrapped: the wrapping
    history reaches a state with [head < tail]. *)
Lemma tail_passes_head_after_wrap :
  exists rb0 rb lg,
    New 2 = Ok rb0 /\
    run wrapping_history (rb0, ([], [])) = Ok (rb, lg) /\
    ~ tail rb <= head rb.
Proof.
  destruct (New_accepts_pow2 (T := Z) 1 ltac:(lia)) as (rb0 & HNew).
  destruct (run_wrapped 7 (Z.to_nat (2 ^ 64 - 1)) 2 rb0)
    as (rb & lg & Hrun & Hh & Ht); [apply Z2Nat.id; lia | lia | exact HNew |].
  exists rb0, rb, lg. split; [exact HNew|]. split; [exact Hrun|]. lia.
Qed.


Lemma fresh_queue_fills_witness :
  exists rb',
    run (OpPush <$> [1; 2; 3; 4; 5]) (queue4, ([], [])) =
      Ok (rb', (take (Z.to_nat 4) [1; 2; 3; 4; 5], [])) /\
    pending rb' = take (Z.to_nat 4) [1; 2; 3; 4; 5].
Proof.
  apply (fresh_queue_fills 4 queue4 [1; 2; 3; 4; 5]); [lia | reflexivity].
Defined.

Lemma push_then_pop_witness :
  exists rb1 rb2,
    Push drained4 9 = Ok (rb1, true) /\
    Pop rb1 = Ok (rb2, (9, true)) /\
    head rb2 = tail rb2 /\ pending rb2 = [].
Proof.
  apply (push_then_pop 4 queue4 short_history drained4 [1; 2; 3] [1; 2; 3] 9);
    [lia | reflexivity | reflexivity | reflexivity | simpl; lia].
Defined.

Lemma zero_capacity_inert_witness :
  run short_history (queue_of_0, ([], [])) = Ok (queue_of_0, ([], [])).
Proof. apply (zero_capacity_inert queue_of_0 short_history). reflexivity. Defined.

Lemma calls_finish_witness :
  exists s',
    execute both_stepping both_called = Ok s' /\
    prod s' = PIdle /\ cons s' = CIdle.
Proof.
  destruct (calls_finish 4 queue4 both_calling both_stepping both_called)
    as (s' & Hrun & Hp & Hc); [lia | reflexivity | reflexivity |].
  exists s'. split; [exact Hrun|]. split.
  - apply Hp; [repeat constructor | simpl; lia].
  - apply Hc; [repeat constructor | simpl; lia].
Defined.

End Fastqueue.

(** ** pkg/arena: the bump allocator *)

Module Arena.

(** [offset] is a Go [int]; [buf] is the backing [[]byte]. *)
Record Arena : Type := mkArena {
  buf : list byte;
  offset : Z
}.

Definition len (a : Arena) : Z := Z.of_nat (length (buf a)).

(** What [unsafe.Sizeof] and [unsafe.Alignof] say of a type [T].  For every
    Go type the size is not negative and the alignment is at least 1. *)
Record GoType : Type := mkGoType {
  sizeof : Z;
  alignof : Z
}.

Definition wf_type (T : GoType) : Prop :=
  0 <= sizeof T <= MaxInt /\ 1 <= alignof T <= MaxInt.

Definition byte_type : GoType := {| sizeof := 1; alignof := 1 |}.
Definition int_type : GoType := {| sizeof := 8; alignof := 8 |}.
Definition float64_type : GoType := {| sizeof := 8; alignof := 8 |}.
Definition empty_struct_type : GoType := {| sizeof := 0; alignof := 1 |}.

(** The slice header that [MakeSlice] returns; [data] is the offset of the
    first element in the arena's buffer. *)
Record Slice : Type := mkSlice {
  data : Z;
  slice_len : Z;
  slice_cap : Z
}.

(** *** Stateful code that may panic

    A computation takes the arena and gives back a result together with the
    arena it leaves behind, also when it panics. *)

Definition M (A : Type) : Type := Arena -> result A * Arena.

#[global] Instance M_ret : MRet M := fun A x a => (Ok x, a).

#[global] Instance M_bind : MBind M := fun A B f m a =>
  match m a with
  | (Ok x, a') => f x a'
  | (Panic msg, a') => (Panic msg, a')
  end.

Definition panic {A : Type} (msg : string) : M A := fun a => (Panic msg, a).

Definition get_offset : M Z := fun a => (Ok (offset a), a).

Definition get_len : M Z := fun a => (Ok (len a), a).

(** [a.offset += n] *)
Definition add_offset (n : Z) : M unit := fun a =>
  (Ok tt, {| buf := buf a; offset := wrap (offset a + n) |}).

(** [unsafe.Pointer(&a.buf[a.offset])]: the index expression is
    bounds-checked; the pointer is the offset into the buffer. *)
Definition addr_at_offset : M Z := fun a =>
  if (0 <=? offset a) && (offset a <? len a)
  then (Ok (offset a), a)
  else (Panic "index out of range", a).

(** The bytes from [p] up to [p + n] set to zero. *)
Definition zero_fill (p n : Z) (l : list byte) : list byte :=
  imap (fun k b =>
          if (p <=? Z.of_nat k) && (Z.of_nat k <? p + n) then x00 else b) l.

(** A store of the zero value of a type of [n] bytes through an unsafe
    pointer.  Nothing checks such a store; outside the buffer it is
    undefined behaviour, which the model reports as a fault. *)
Definition store_zero (p n : Z) : M unit := fun a =>
  if (0 <=? p) && (p + n <=? len a)
  then (Ok tt, {| buf := zero_fill p n (buf a); offset := offset a |})
  else (Panic "fault: store outside the buffer", a).

(** [(align - (a.offset % align)) % align], in [int] arithmetic; [%] is
    Go's truncated remainder. *)
Definition padding (off align : Z) : Z :=
  Z.rem (wrap (align - Z.rem off align)) align.

(** *** The allocator *)

Definition Reset (a : Arena) : Arena := {| buf := buf a; offset := 0 |}.

(** [arenaPool], a [sync.Pool], as the list of the arenas it holds: [Get]
    hands out one of them, or makes an arena of 64 MB when it holds none. *)
Definition default_size : Z := 64 * 1024 * 1024.

Definition fresh_arena : Arena :=
  {| buf := replicate (Z.to_nat default_size) x00; offset := 0 |}.

Definition Acquire (pool : list Arena) : Arena * list Arena :=
  match pool with
  | a :: pool' => (a, pool')
  | [] => (fresh_arena, [])
  end.

Definition Release (a : Arena) (pool : list Arena) : list Arena :=
  Reset a :: pool.

Definition New (T : GoType) : M Z :=
  let size := sizeof T in
  let align := alignof T in
  off ← get_offset;
  let pad := padding off align in
  n ← get_len;
  if n <? wrap (wrap (off + pad) + size) then panic "arena: out of memory"
  else
    add_offset pad;;
    ptr ← addr_at_offset;
    add_offset size;;
    store_zero ptr size;;
    mret ptr.

(** [unsafe.Slice(ptr, capacity)] panics on a negative length and on a byte
    size that does not fit the address space. *)
Definition unsafe_Slice (elemSize : Z) (ptr capacity : Z) : M Slice :=
  if (capacity <? 0) || (MaxInt <? elemSize * capacity)
  then panic "unsafe.Slice: len out of range"
  else mret {| data := ptr; slice_len := capacity; slice_cap := capacity |}.

(** [for i := 0; i < capacity; i++ { s[i] = empty }], with [n] iterations
    left to run from index [i]. *)
Fixpoint zero_elems (elemSize : Z) (s : Slice) (i : Z) (n : nat) : M unit :=
  match n with
  | O => mret tt
  | S n' =>
      store_zero (data s + i * elemSize) elemSize;;
      zero_elems elemSize s (i + 1) n'
  end.

(** [s[:length]] *)
Definition reslice (s : Slice) (length : Z) : M Slice :=
  if (length <? 0) || (slice_cap s <? length)
  then panic "slice bounds out of range"
  else mret {| data := data s; slice_len := length; slice_cap := slice_cap s |}.

Definition MakeSlice (T : GoType) (length capacity : Z) : M Slice :=
  let elemSize := sizeof T in
  let elemAlign := alignof T in
  let size := wrap (elemSize * capacity) in
  off ← get_offset;
  let pad := padding off elemAlign in
  n ← get_len;
  if n <? wrap (wrap (off + pad) + size) then panic "arena: out of memory"
  else
    add_offset pad;;
    basePtr ← addr_at_offset;
    add_offset size;;
    s ← unsafe_Slice elemSize basePtr capacity;
    zero_elems elemSize s 0 (Z.to_nat capacity);;
    reslice s length.

(** *** Requests and the spans they return *)

Inductive request : Type :=
| ReqNew (T : GoType)
| ReqMakeSlice (T : GoType) (length capacity : Z).

Definition req_type (r : request) : GoType :=
  match r with
  | ReqNew T => T
  | ReqMakeSlice T _ _ => T
  end.

(** The size a request asks for, in bytes, as a mathematical integer. *)
Definition req_bytes (r : request) : Z :=
  match r with
  | ReqNew T => sizeof T
  | ReqMakeSlice T _ capacity => sizeof T * capacity
  end.

(** The memory a call hands out: [extent] bytes from offset [start], for a
    type of alignment [span_align]. *)
Record span : Type := mkSpan {
  start : Z;
  extent : Z;
  span_align : Z
}.

Definition alloc (r : request) : M span :=
  match r with
  | ReqNew T =>
      ptr ← New T;
      mret {| start := ptr; extent := sizeof T; span_align := alignof T |}
  | ReqMakeSlice T length capacity =>
      s ← MakeSlice T length capacity;
      mret {| start := data s;
              extent := sizeof T * slice_cap s;
              span_align := alignof T |}
  end.

(** The spans handed out by a sequence of requests, up to the first one that
    panics (a panic ends the program). *)
Fixpoint alloc_seq (rs : list request) (a : Arena) : list span * Arena :=
  match rs with
  | [] => ([], a)
  | r :: rs' =>
      match alloc r a with
      | (Ok s, a') => let (ss, a'') := alloc_seq rs' a' in (s :: ss, a'')
      | (Panic _, a') => ([], a')
      end
  end.

Definition disjoint (s1 s2 : span) : Prop :=
  start s1 + extent s1 <= start s2 \/ start s2 + extent s2 <= start s1.

Definition aligned (s : span) : Prop := (span_align s | start s).

Definition inside (a : Arena) (s : span) : Prop :=
  0 <= start s /\ 0 <= extent s /\ start s + extent s <= len a.

Definition zeroed (a : Arena) (s : span) : Prop :=
  forall k, start s <= k < start s + extent s ->
            buf a !! Z.to_nat k = Some x00.

(** The arena invariant: the cursor lies within the buffer, whose length is
    a Go [int]. *)
Definition arena_ok (a : Arena) : Prop :=
  0 <= offset a <= len a /\ len a <= MaxInt.

(** A request whose arithmetic stays within [int]. *)
Definition no_overflow (a : Arena) (r : request) : Prop :=
  len a + alignof (req_type r) <= MaxInt /\
  MinInt <= req_bytes r /\
  len a + alignof (req_type r) + req_bytes r <= MaxInt.

(** An arena at the start of an epoch, and a pool of such arenas. *)
Definition at_start (a : Arena) : Prop :=
  offset a = 0 /\ len a <= MaxInt.

Definition pool_ok (pool : list Arena) : Prop := Forall at_start pool.

(** The arguments of a request are in order: the length of a slice is
    between 0 and its capacity. *)
Definition valid (r : request) : Prop :=
  match r with
  | ReqNew _ => True
  | ReqMakeSlice _ length capacity => 0 <= length <= capacity
  end.

(** When every request fits (the running total, padding included, stays
    within [cap]) and has a place for its first byte. *)
Fixpoint fits (off : Z) (rs : list request) (cap : Z) : Prop :=
  match rs with
  | [] => True
  | r :: rs' =>
      let p := off + padding off (alignof (req_type r)) in
      valid r /\ p < cap /\ 0 <= req_bytes r /\ p + req_bytes r <= cap /\
      fits (p + req_bytes r) rs' cap
  end.

(** [sync.Pool] promises less than a list does: [Get] hands out any one of
    the arenas that were put and are still held, or a new one. *)
Inductive pool_get (pool : list Arena) : Arena -> list Arena -> Prop :=
| get_pooled (i : nat) (a : Arena) :
    pool !! i = Some a -> pool_get pool a (delete i pool)
| get_new : pool_get pool fresh_arena pool.

(** *** Concrete arenas and requests *)

(** Twenty-four stale bytes, cursor at 3. *)
Definition stale_arena : Arena :=
  {| buf := replicate 24 xff; offset := 3 |}.

Definition three_requests : list request :=
  [ReqNew byte_type; ReqNew int_type; ReqMakeSlice byte_type 0 4].

Definition huge_slice : request := ReqMakeSlice int_type 0 (2 ^ 61).

(** [stale_arena] with the cursor at 17: aligned to 8 it is at the end. *)
Definition nearly_full_arena : Arena :=
  {| buf := buf stale_arena; offset := 17 |}.

(** *** Arithmetic of the cursor *)

Lemma padding_spec off align :
  0 <= off <= MaxInt -> 1 <= align <= MaxInt ->
  0 <= padding off align < align /\ (align | off + padding off align).
Proof.
  intros Hoff Halign. unfold padding.
  rewrite (Z.rem_mod_nonneg off align) by lia.
  pose proof (Z.mod_pos_bound off align ltac:(lia)) as Hr.
  rewrite wrap_small by (unfold in_int, MinInt, MaxInt in *; lia).
  rewrite Z.rem_mod_nonneg by lia.
  pose proof (Z.mod_pos_bound (align - off mod align) align ltac:(lia)) as Hp.
  split; [lia|].
  apply Z.mod_divide; [lia|].
  rewrite Zplus_mod_idemp_r.
  replace (off + (align - off mod align))
    with (off - off mod align + 1 * align) by lia.
  rewrite Z.mod_add by lia.
  rewrite Zminus_mod_idemp_r, Z.sub_diag. apply Z.mod_0_l. lia.
Qed.

Lemma length_zero_fill p n l : length (zero_fill p n l) = length l.
Proof. apply length_imap. Qed.

Lemma lookup_zero_fill p n l (k : nat) :
  zero_fill p n l !! k =
  (fun b => if (p <=? Z.of_nat k) && (Z.of_nat k <? p + n) then x00 else b)
    <$> l !! k.
Proof. apply list_lookup_imap. Qed.

Lemma lookup_zero_fill_in p n l (k : Z) :
  0 <= p -> p <= k < p + n -> k < Z.of_nat (length l) ->
  zero_fill p n l !! Z.to_nat k = Some x00.
Proof.
  intros Hp Hk Hlen. rewrite lookup_zero_fill.
  destruct (lookup_lt_is_Some_2 l (Z.to_nat k) ltac:(lia)) as [b ->]. simpl.
  rewrite Z2Nat.id by lia.
  destruct (Z.leb_spec p k); [|lia].
  destruct (Z.ltb_spec k (p + n)); [reflexivity|lia].
Qed.

Lemma lookup_zero_fill_out p n l (k : nat) :
  Z.of_nat k < p \/ p + n <= Z.of_nat k ->
  zero_fill p n l !! k = l !! k.
Proof.
  intros Hk. rewrite lookup_zero_fill.
  destruct (l !! k) as [b|]; [simpl|reflexivity].
  destruct (Z.leb_spec p (Z.of_nat k)); [|reflexivity].
  destruct (Z.ltb_spec (Z.of_nat k) (p + n)); [lia|reflexivity].
Qed.

Lemma zero_fill_zero_fill p n1 n2 l :
  0 <= n1 -> 0 <= n2 ->
  zero_fill (p + n1) n2 (zero_fill p n1 l) = zero_fill p (n1 + n2) l.
Proof.
  intros H1 H2. apply list_eq. intros k.
  rewrite !lookup_zero_fill. destruct (l !! k) as [b|]; [simpl|reflexivity].
  f_equal.
  destruct (Z.leb_spec p (Z.of_nat k)), (Z.ltb_spec (Z.of_nat k) (p + n1)),
    (Z.leb_spec (p + n1) (Z.of_nat k)),
    (Z.ltb_spec (Z.of_nat k) (p + n1 + n2)),
    (Z.ltb_spec (Z.of_nat k) (p + (n1 + n2))); simpl; try reflexivity; lia.
Qed.

Lemma zero_fill_nothing p l : zero_fill p 0 l = l.
Proof.
  apply list_eq. intros k. rewrite lookup_zero_fill_out by lia. reflexivity.
Qed.

(** *** The pool *)

Lemma len_fresh_arena : len fresh_arena = default_size.
Proof.
  unfold len, fresh_arena. cbn [buf]. rewrite length_replicate.
  apply Z2Nat.id. unfold default_size. lia.
Qed.

Lemma Reset_at_start a : len a <= MaxInt -> at_start (Reset a).
Proof. intros Hlen. split; [reflexivity | exact Hlen]. Qed.

(** What [Acquire] hands out is at the start of an epoch, and [Release]
    puts the arena back that way. *)
Lemma Acquire_at_start pool a pool' :
  pool_ok pool -> Acquire pool = (a, pool') -> at_start a /\ pool_ok pool'.
Proof.
  intros Hpool Hget. destruct pool as [|a0 pool0]; simpl in Hget;
    injection Hget as <- <-.
  - split; [|constructor]. split; [reflexivity|].
    rewrite len_fresh_arena. unfold default_size, MaxInt. lia.
  - inversion Hpool; subst. auto.
Qed.

Lemma Release_pool_ok a pool :
  len a <= MaxInt -> pool_ok pool -> pool_ok (Release a pool).
Proof.
  intros Hlen Hpool. constructor; [now apply Reset_at_start | exact Hpool].
Qed.

(** *** [New] *)

Ltac run_M :=
  unfold mbind, M_bind, mret, M_ret, panic, get_offset, get_len, add_offset,
    addr_at_offset, store_zero, len in *; simpl in *.

(** What [New] does, case by case. *)
Lemma New_cases T a :
  let pad := padding (offset a) (alignof T) in
  let p := wrap (offset a + pad) in
  New T a =
    if len a <? wrap (p + sizeof T)
    then (Panic "arena: out of memory", a)
    else if (0 <=? p) && (p <? len a)
    then if (0 <=? p) && (p + sizeof T <=? len a)
         then (Ok p, {| buf := zero_fill p (sizeof T) (buf a);
                        offset := wrap (p + sizeof T) |})
         else (Panic "fault: store outside the buffer",
               {| buf := buf a; offset := wrap (p + sizeof T) |})
    else (Panic "index out of range", {| buf := buf a; offset := p |}).
Proof.
  unfold New. run_M.
  destruct (_ <? wrap _); [reflexivity|].
  destruct (_ && _); [|reflexivity].
  destruct (_ && _); reflexivity.
Qed.

(** *** [MakeSlice] *)

(** The zeroing loop returns when every element lies in the buffer, and
    then it has cleared the bytes of the elements it ran over. *)
Lemma zero_elems_in_bounds es s n : forall i a,
  0 <= es ->
  0 <= data s + i * es ->
  data s + (i + Z.of_nat n) * es <= len a ->
  zero_elems es s i n a =
  (Ok tt, {| buf := zero_fill (data s + i * es) (Z.of_nat n * es) (buf a);
             offset := offset a |}).
Proof.
  induction n as [|n IH]; intros i a Hes Hlo Hhi.
  - simpl. rewrite zero_fill_nothing. destruct a; reflexivity.
  - cbn [zero_elems]. unfold mbind at 1. unfold M_bind at 1.
    unfold store_zero at 1.
    destruct (Z.leb_spec 0 (data s + i * es)); [|lia].
    destruct (Z.leb_spec (data s + i * es + es) (len a)); [|nia].
    simpl. rewrite IH; simpl.
    + replace (data s + (i + 1) * es) with (data s + i * es + es) by lia.
      rewrite zero_fill_zero_fill by nia.
      do 3 f_equal. lia.
    + assumption.
    + nia.
    + unfold len in *. simpl. rewrite length_zero_fill. nia.
Qed.

Lemma zero_elems_returns es s n : forall i a a',
  0 <= es -> 0 <= i ->
  zero_elems es s i n a = (Ok tt, a') ->
  n = O \/ (0 <= data s + i * es /\ data s + (i + Z.of_nat n) * es <= len a).
Proof.
  induction n as [|n IH]; intros i a a' Hes Hi Hrun; [now left|right].
  cbn [zero_elems] in Hrun. unfold mbind in Hrun at 1.
  unfold M_bind in Hrun at 1. unfold store_zero in Hrun at 1.
  destruct (Z.leb_spec 0 (data s + i * es)); [|discriminate].
  destruct (Z.leb_spec (data s + i * es + es) (len a)); [|discriminate].
  simpl in Hrun. split; [assumption|].
  apply IH in Hrun as [-> | [_ Hhi]]; try lia.
  unfold len in *. simpl in Hhi. rewrite length_zero_fill in Hhi. lia.
Qed.

Lemma zero_elems_no_oom es s n : forall i a,
  fst (zero_elems es s i n a) <> Panic "arena: out of memory".
Proof.
  induction n as [|n IH]; intros i a; simpl; [discriminate|].
  unfold mbind at 1. unfold M_bind at 1. unfold store_zero at 1.
  destruct (_ && _); simpl; [apply IH | discriminate].
Qed.

(** What [MakeSlice] does, case by case. *)
Lemma MakeSlice_cases T length capacity a :
  let pad := padding (offset a) (alignof T) in
  let p := wrap (offset a + pad) in
  let size := wrap (sizeof T * capacity) in
  let s := {| data := p; slice_len := capacity; slice_cap := capacity |} in
  MakeSlice T length capacity a =
    if len a <? wrap (p + size)
    then (Panic "arena: out of memory", a)
    else if (0 <=? p) && (p <? len a)
    then if (capacity <? 0) || (MaxInt <? sizeof T * capacity)
         then (Panic "unsafe.Slice: len out of range",
               {| buf := buf a; offset := wrap (p + size) |})
         else match zero_elems (sizeof T) s 0 (Z.to_nat capacity)
                      {| buf := buf a; offset := wrap (p + size) |} with
              | (Ok _, a') => reslice s length a'
              | (Panic m, a') => (Panic m, a')
              end
    else (Panic "index out of range", {| buf := buf a; offset := p |}).
Proof.
  unfold MakeSlice, unsafe_Slice. run_M.
  destruct (_ <? wrap _); [reflexivity|].
  destruct (_ && _); [|reflexivity].
  destruct (_ || _); reflexivity.
Qed.

(** *** Calls that return *)

Lemma bind_returns {A B : Type} (m : M A) (f : A -> M B) a y a' :
  (m ≫= f) a = (Ok y, a') ->
  exists x a1, m a = (Ok x, a1) /\ f x a1 = (Ok y, a').
Proof.
  unfold mbind, M_bind. destruct (m a) as [[x|msg] a1]; [eauto|discriminate].
Qed.

Lemma New_returns T a p a' :
  arena_ok a -> wf_type T -> New T a = (Ok p, a') ->
  p = offset a + padding (offset a) (alignof T) /\
  p + sizeof T <= len a /\
  a' = {| buf := zero_fill p (sizeof T) (buf a); offset := p + sizeof T |}.
Proof.
  intros [Hoff Hlen] [Hsize Halign] HNew.
  destruct (padding_spec (offset a) (alignof T)) as [Hpad _]; [lia..|].
  rewrite New_cases in HNew.
  destruct (_ <? wrap _); [simpl in HNew; discriminate HNew|].
  destruct (Z.leb_spec 0 (wrap (offset a + padding (offset a) (alignof T))))
    as [Hnn|]; [|simpl in HNew; discriminate HNew].
  rewrite !(wrap_of_nonneg (offset a + _)) in HNew by lia.
  destruct (Z.ltb_spec (offset a + padding (offset a) (alignof T)) (len a));
    [|simpl in HNew; discriminate HNew].
  simpl in HNew.
  destruct (Z.leb_spec (offset a + padding (offset a) (alignof T) + sizeof T)
              (len a)); [|simpl in HNew; discriminate HNew].
  injection HNew as <- <-.
  rewrite wrap_small by (unfold in_int, MinInt, MaxInt in *; lia).
  repeat split; lia.
Qed.

Lemma MakeSlice_returns T n capacity a s a' :
  arena_ok a -> wf_type T -> MakeSlice T n capacity a = (Ok s, a') ->
  let p := offset a + padding (offset a) (alignof T) in
  s = {| data := p; slice_len := n; slice_cap := capacity |} /\
  0 <= n <= capacity /\
  p + sizeof T * capacity <= len a /\
  a' = {| buf := zero_fill p (sizeof T * capacity) (buf a);
          offset := p + sizeof T * capacity |}.
Proof.
  intros [Hoff Hlen] [Hsize Halign] HMake.
  destruct (padding_spec (offset a) (alignof T)) as [Hpad _]; [lia..|].
  rewrite MakeSlice_cases in HMake.
  destruct (_ <? wrap _); [simpl in HMake; discriminate HMake|].
  destruct (Z.leb_spec 0 (wrap (offset a + padding (offset a) (alignof T))))
    as [Hnn|]; [|simpl in HMake; discriminate HMake].
  rewrite !(wrap_of_nonneg (offset a + _)) in HMake by lia.
  destruct (Z.ltb_spec (offset a + padding (offset a) (alignof T)) (len a));
    [|simpl in HMake; discriminate HMake].
  simpl in HMake.
  destruct (Z.ltb_spec capacity 0); [simpl in HMake; discriminate HMake|].
  destruct (Z.ltb_spec MaxInt (sizeof T * capacity)); [simpl in HMake; discriminate HMake|].
  simpl in HMake.
  assert (0 <= sizeof T * capacity) by nia.
  rewrite (wrap_small (sizeof T * capacity)) in HMake
    by (unfold in_int, MinInt, MaxInt in *; lia).
  destruct (zero_elems _ _ _ _ _) as [[[]|m] a1] eqn:Hloop;
    [|simpl in HMake; discriminate HMake].
  pose proof Hloop as Hbound.
  apply zero_elems_returns in Hbound; [|lia..].
  change (len {| buf := buf a; offset := _ |}) with (len a) in Hbound.
  simpl in Hbound.
  rewrite Z2Nat.id in Hbound by lia.
  assert (offset a + padding (offset a) (alignof T) + sizeof T * capacity
          <= len a) as Hfit.
  { destruct Hbound as [Hz|Hb]; [|lia].
    assert (capacity = 0) as -> by lia. lia. }
  rewrite wrap_small in Hloop by (unfold in_int, MinInt, MaxInt in *; lia).
  rewrite zero_elems_in_bounds in Hloop; simpl;
    [|lia|lia|rewrite Z2Nat.id by lia; unfold len in *; simpl; lia].
  injection Hloop as <-.
  unfold reslice in HMake. simpl in HMake.
  destruct (Z.ltb_spec n 0); [simpl in HMake; discriminate HMake|].
  destruct (Z.ltb_spec capacity n); [simpl in HMake; discriminate HMake|].
  injection HMake as <- <-. simpl.
  rewrite Z2Nat.id by lia. rewrite Z.mul_0_l, Z.add_0_r.
  rewrite (Z.mul_comm capacity).
  repeat split; lia.
Qed.

(** *** One allocation *)

(** A call that returns has placed its span at the cursor, after the
    padding, inside the buffer, has cleared it and has moved the cursor to
    its end. *)
Lemma alloc_returns r a s a' :
  arena_ok a -> wf_type (req_type r) -> alloc r a = (Ok s, a') ->
  let p := offset a + padding (offset a) (alignof (req_type r)) in
  start s = p /\ extent s = req_bytes r /\ 0 <= extent s /\
  span_align s = alignof (req_type r) /\
  p + extent s <= len a /\
  a' = {| buf := zero_fill p (req_bytes r) (buf a);
          offset := p + req_bytes r |}.
Proof.
  intros Hok Hwf Halloc. pose proof Hwf as [Hsize Halign].
  destruct r as [T | T length capacity]; simpl in *;
    apply bind_returns in Halloc as (x & a1 & Hcall & Hret);
    injection Hret as <- <-; simpl.
  - apply New_returns in Hcall as (-> & Hfit & ->); [|assumption..].
    repeat split; lia.
  - apply MakeSlice_returns in Hcall as (-> & Hlen & Hfit & ->);
      [|assumption..]. simpl.
    repeat split; try lia. nia.
Qed.

Lemma alloc_returns_ok r a s a' :
  arena_ok a -> wf_type (req_type r) -> alloc r a = (Ok s, a') ->
  arena_ok a' /\ len a' = len a /\
  offset a <= start s /\ start s + extent s = offset a' /\
  aligned s /\ inside a' s /\ zeroed a' s.
Proof.
  intros Hok Hwf Halloc.
  destruct (alloc_returns r a s a' Hok Hwf Halloc)
    as (Hstart & Hext & Hnn & Hal & Hfit & ->).
  destruct Hok as [Hoff Hlen]. destruct Hwf as [Hsize Halign].
  destruct (padding_spec (offset a) (alignof (req_type r)))
    as [Hpad Hdiv]; [lia..|].
  assert (len {| buf := zero_fill (offset a + padding (offset a)
                                     (alignof (req_type r)))
                          (req_bytes r) (buf a);
                 offset := offset a + padding (offset a)
                             (alignof (req_type r)) + req_bytes r |}
          = len a) as Hlen'.
  { unfold len. simpl. now rewrite length_zero_fill. }
  split; [|split; [|split; [|split; [|split; [|split]]]]].
  - unfold arena_ok. rewrite Hlen'. simpl. lia.
  - assumption.
  - lia.
  - simpl. lia.
  - unfold aligned. rewrite Hal, Hstart. assumption.
  - unfold inside. rewrite Hlen'. lia.
  - intros k Hk. simpl. rewrite <- Hstart, <- Hext.
    apply lookup_zero_fill_in; unfold len in *; lia.
Qed.

Lemma alloc_fits r a :
  arena_ok a -> wf_type (req_type r) -> valid r ->
  let p := offset a + padding (offset a) (alignof (req_type r)) in
  p < len a -> 0 <= req_bytes r -> p + req_bytes r <= len a ->
  exists s a', alloc r a = (Ok s, a').
Proof.
  intros [Hoff Hlen] [Hsize Halign] Hvalid p Hin Hnn Hfit. subst p.
  destruct (padding_spec (offset a) (alignof (req_type r)))
    as [Hpad _]; [lia..|].
  assert (forall x, MinInt <= x <= MaxInt -> wrap x = x) as Hw
    by (intros; now apply wrap_small).
  unfold MinInt, MaxInt in *.
  destruct r as [T | T n capacity]; simpl in *; unfold mbind, M_bind.
  - rewrite New_cases.
    rewrite !(Hw (offset a + padding _ _)) by lia.
    rewrite !(Hw (_ + _ + _)) by lia.
    destruct (Z.ltb_spec (len a)
                (offset a + padding (offset a) (alignof T) + sizeof T));
      [lia|].
    destruct (Z.leb_spec 0 (offset a + padding (offset a) (alignof T)));
      [|lia].
    destruct (Z.ltb_spec (offset a + padding (offset a) (alignof T)) (len a));
      [|lia].
    destruct (Z.leb_spec (offset a + padding (offset a) (alignof T) + sizeof T)
                (len a)); [|lia].
    simpl. eauto.
  - assert (0 <= capacity) by lia.
    rewrite MakeSlice_cases.
    rewrite !(Hw (offset a + padding _ _)) by lia.
    rewrite !(Hw (sizeof T * capacity)) by lia.
    rewrite !(Hw (_ + _ + _)) by lia.
    destruct (Z.ltb_spec (len a)
                (offset a + padding (offset a) (alignof T)
                 + sizeof T * capacity)); [lia|].
    destruct (Z.leb_spec 0 (offset a + padding (offset a) (alignof T)));
      [|lia].
    destruct (Z.ltb_spec (offset a + padding (offset a) (alignof T)) (len a));
      [|lia].
    destruct (Z.ltb_spec capacity 0); [lia|].
    destruct (Z.ltb_spec MaxInt (sizeof T * capacity));
      [unfold MaxInt in *; lia|].
    simpl.
    rewrite zero_elems_in_bounds; simpl;
      [|lia|lia|rewrite Z2Nat.id by lia; unfold len in *; simpl; lia].
    unfold reslice. simpl.
    destruct (Z.ltb_spec n 0); [lia|].
    destruct (Z.ltb_spec capacity n); [lia|].
    simpl. eauto.
Qed.

Lemma New_fits T a :
  arena_ok a -> wf_type T ->
  let p := offset a + padding (offset a) (alignof T) in
  p < len a -> p + sizeof T <= len a ->
  New T a = (Ok p, {| buf := zero_fill p (sizeof T) (buf a);
                      offset := p + sizeof T |}).
Proof.
  intros Hok Hwf p Hin Hfit.
  destruct (alloc_fits (ReqNew T) a Hok Hwf I Hin) as (s & a' & Halloc);
    [destruct Hwf; simpl; lia | exact Hfit |].
  simpl in Halloc. apply bind_returns in Halloc as (x & a1 & HNew & _).
  rewrite HNew.
  apply New_returns in HNew as (-> & _ & ->); [reflexivity|assumption..].
Qed.

(** The out-of-memory panic is raised before anything is written. *)
Lemma alloc_over_capacity r a :
  arena_ok a -> wf_type (req_type r) -> no_overflow a r ->
  len a - offset a
    < padding (offset a) (alignof (req_type r)) + req_bytes r ->
  alloc r a = (Panic "arena: out of memory", a).
Proof.
  intros [Hoff Hlen] [Hsize Halign] (Ho1 & Ho2 & Ho3) Hover.
  destruct (padding_spec (offset a) (alignof (req_type r)))
    as [Hpad _]; [lia..|].
  assert (forall x, MinInt <= x <= MaxInt -> wrap x = x) as Hw
    by (intros; now apply wrap_small).
  unfold MinInt, MaxInt in *.
  destruct r as [T | T n capacity]; simpl in *; unfold mbind, M_bind.
  - rewrite New_cases.
    rewrite !(Hw (offset a + padding _ _)) by lia.
    rewrite !(Hw (_ + _ + _)) by lia.
    destruct (Z.ltb_spec (len a)
                (offset a + padding (offset a) (alignof T) + sizeof T));
      [reflexivity|lia].
  - rewrite MakeSlice_cases.
    rewrite !(Hw (offset a + padding _ _)) by lia.
    rewrite !(Hw (sizeof T * capacity)) by lia.
    rewrite !(Hw (_ + _ + _)) by lia.
    destruct (Z.ltb_spec (len a)
                (offset a + padding (offset a) (alignof T)
                 + sizeof T * capacity)); [reflexivity|lia].
Qed.

Lemma alloc_within_capacity r a :
  arena_ok a -> wf_type (req_type r) -> no_overflow a r ->
  padding (offset a) (alignof (req_type r)) + req_bytes r
    <= len a - offset a ->
  fst (alloc r a) <> Panic "arena: out of memory".
Proof.
  intros [Hoff Hlen] [Hsize Halign] (Ho1 & Ho2 & Ho3) Hin.
  destruct (padding_spec (offset a) (alignof (req_type r)))
    as [Hpad _]; [lia..|].
  assert (forall x, MinInt <= x <= MaxInt -> wrap x = x) as Hw
    by (intros; now apply wrap_small).
  unfold MinInt, MaxInt in *.
  destruct r as [T | T n capacity]; simpl in *; unfold mbind, M_bind.
  - rewrite New_cases.
    rewrite !(Hw (offset a + padding _ _)) by lia.
    rewrite !(Hw (_ + _ + _)) by lia.
    destruct (Z.ltb_spec (len a)
                (offset a + padding (offset a) (alignof T) + sizeof T));
      [lia|].
    destruct (_ && _); [|simpl; discriminate].
    destruct (_ && _); simpl; discriminate.
  - rewrite MakeSlice_cases.
    rewrite !(Hw (offset a + padding _ _)) by lia.
    rewrite !(Hw (sizeof T * capacity)) by lia.
    rewrite !(Hw (_ + _ + _)) by lia.
    destruct (Z.ltb_spec (len a)
                (offset a + padding (offset a) (alignof T)
                 + sizeof T * capacity)); [lia|].
    destruct (_ && _); [|simpl; discriminate].
    destruct (_ || _); [simpl; discriminate|].
    match goal with
    | |- context [zero_elems ?es ?s ?i ?k ?st] =>
        pose proof (zero_elems_no_oom es s k i st) as Hloop;
        destruct (zero_elems es s i k st) as [[[]|m] a1]
    end; simpl in *.
    + unfold reslice, panic, mret, M_ret.
      destruct (_ || _); simpl; discriminate.
    + intros [= ->]. now apply Hloop.
Qed.

(** *** A sequence of allocations *)

Lemma alloc_seq_spans rs : forall a,
  arena_ok a -> Forall (fun r => wf_type (req_type r)) rs ->
  let spans := fst (alloc_seq rs a) in
  Forall (fun s => offset a <= start s /\ 0 <= extent s /\
                   start s + extent s <= len a /\ aligned s) spans /\
  (forall (i j : nat) si sj,
     (i < j)%nat -> spans !! i = Some si -> spans !! j = Some sj ->
     disjoint si sj).
Proof.
  induction rs as [|r rs IH]; intros a Hok Hwf; simpl.
  - split; [constructor|]. intros i j si sj _ Hi. discriminate.
  - inversion Hwf as [|? ? Hr Hrs]; subst.
    destruct (alloc r a) as [[s|msg] a1] eqn:Halloc; simpl.
    2:{ split; [constructor|]. intros i j si sj _ Hi. discriminate. }
    destruct (alloc_returns_ok r a s a1 Hok Hr Halloc)
      as (Hok1 & Hlen1 & Hlo & Hend & Hal & Hin & _).
    specialize (IH a1 Hok1 Hrs).
    destruct (alloc_seq rs a1) as [ss a2]. simpl in *.
    destruct IH as [Hall Hpair].
    destruct Hin as (Hs0 & Hs1 & Hs2).
    split.
    + constructor; [rewrite <- Hlen1; repeat split; try assumption; lia|].
      eapply Forall_impl; [exact Hall|]. simpl.
      intros s' (? & ? & ? & ?). repeat split; try assumption; lia.
    + intros i j si sj Hij Hi Hj.
      destruct j as [|j]; [lia|]. simpl in Hj.
      destruct i as [|i]; simpl in Hi.
      * injection Hi as <-.
        rewrite Forall_lookup in Hall.
        destruct (Hall j sj Hj) as (Hge & _).
        left. lia.
      * apply (Hpair i j); [lia|assumption..].
Qed.

Lemma alloc_seq_complete rs : forall a,
  arena_ok a -> Forall (fun r => wf_type (req_type r)) rs ->
  fits (offset a) rs (len a) ->
  length (fst (alloc_seq rs a)) = length rs.
Proof.
  induction rs as [|r rs IH]; intros a Hok Hwf Hfits; simpl; [reflexivity|].
  inversion Hwf as [|? ? Hr Hrs]; subst.
  destruct Hfits as (Hvalid & Hin & Hnn & Hfit & Hrest).
  destruct (alloc_fits r a Hok Hr Hvalid Hin Hnn Hfit) as (s & a1 & Halloc).
  rewrite Halloc.
  destruct (alloc_returns r a s a1 Hok Hr Halloc)
    as (_ & _ & _ & _ & _ & Ha1).
  destruct (alloc_returns_ok r a s a1 Hok Hr Halloc)
    as (Hok1 & Hlen1 & _).
  specialize (IH a1 Hok1 Hrs).
  destruct (alloc_seq rs a1) as [ss a2]. simpl in *.
  f_equal. apply IH. rewrite Hlen1, Ha1. simpl. assumption.
Qed.

(** *** The allocator's properties *)

(** C3. Within one epoch (from a [Reset] on), for every sequence of [New]
    and [MakeSlice] requests: each span that is returned is disjoint from
    every span returned before it, and starts at a multiple of the
    alignment of the requested type; and when the requests' total size,
    padding included, stays within the capacity, every request returns its
    span. *)
Theorem spans_disjoint_aligned a rs :
  len a <= MaxInt -> Forall (fun r => wf_type (req_type r)) rs ->
  let spans := fst (alloc_seq rs (Reset a)) in
  (forall (i j : nat) si sj,
     (i < j)%nat -> spans !! i = Some si -> spans !! j = Some sj ->
     disjoint si sj) /\
  Forall aligned spans /\
  (fits 0 rs (len a) -> length spans = length rs).
Proof.
  intros Hlen Hwf.
  assert (arena_ok (Reset a)) as Hok.
  { unfold arena_ok, Reset, len in *. simpl. lia. }
  destruct (alloc_seq_spans rs (Reset a) Hok Hwf) as [Hall Hpair].
  split; [exact Hpair|]. split.
  - eapply Forall_impl; [exact Hall|]. simpl. tauto.
  - intros Hfits. apply alloc_seq_complete; assumption.
Qed.


(** C7. The span that [New] or [MakeSlice] returns lies inside the buffer,
    covers the whole requested size (for a slice: all [capacity] elements)
    and holds only zero bytes, whatever the buffer held before the call. *)
Theorem alloc_zero_filled r a s a' :
  arena_ok a -> wf_type (req_type r) -> alloc r a = (Ok s, a') ->
  inside a' s /\ extent s = req_bytes r /\ zeroed a' s.
Proof.
  intros Hok Hwf Halloc.
  destruct (alloc_returns r a s a' Hok Hwf Halloc) as (_ & Hext & _).
  destruct (alloc_returns_ok r a s a' Hok Hwf Halloc)
    as (_ & _ & _ & _ & _ & Hin & Hz).
  auto.
Qed.

(** *** More on single calls, epochs and the pool *)

Lemma padding_at_start align : 1 <= align <= MaxInt -> padding 0 align = 0.
Proof.
  intros Halign.
  destruct (padding_spec 0 align) as [Hpad [k Hk]];
    [unfold MaxInt; lia | assumption |].
  rewrite Z.add_0_l in Hk.
  destruct (Z.eq_dec k 0) as [->|Hne]; [lia|].
  assert (k <= -1 \/ 1 <= k) as [Hneg|Hpos] by lia; nia.
Qed.

(** X6. [Reset] starts a new epoch on the same bytes: the first span of
    every epoch starts at offset 0, so the first spans of two epochs of one
    arena, when not empty, overlap; the later call finds the earlier
    object's bytes and clears them. *)
Theorem epochs_overlap a r1 r2 s1 a1 s2 a2 :
  len a <= MaxInt ->
  wf_type (req_type r1) -> wf_type (req_type r2) ->
  alloc r1 (Reset a) = (Ok s1, a1) ->
  alloc r2 (Reset a1) = (Ok s2, a2) ->
  buf (Reset a1) = buf a1 /\
  start s1 = 0 /\ start s2 = 0 /\
  (0 < extent s1 -> 0 < extent s2 -> ~ disjoint s1 s2).
Proof.
  intros Hlen Hwf1 Hwf2 H1 H2.
  assert (arena_ok (Reset a)) as Hok.
  { unfold arena_ok, Reset, len in *. simpl. lia. }
  destruct (alloc_returns r1 (Reset a) s1 a1 Hok Hwf1 H1) as (Hs1 & _).
  destruct (alloc_returns_ok r1 (Reset a) s1 a1 Hok Hwf1 H1)
    as (_ & Hlen1 & _).
  assert (arena_ok (Reset a1)) as Hok1.
  { change (len (Reset a)) with (len a) in Hlen1.
    unfold arena_ok, Reset, len in *. simpl. lia. }
  destruct (alloc_returns r2 (Reset a1) s2 a2 Hok1 Hwf2 H2) as (Hs2 & _).
  simpl in Hs1, Hs2.
  rewrite padding_at_start in Hs1 by apply Hwf1.
  rewrite padding_at_start in Hs2 by apply Hwf2.
  split; [reflexivity|]. split; [assumption|]. split; [assumption|].
  intros He1 He2 [Hd|Hd]; lia.
Qed.

(** X7. Frame: a call that returns changes no byte outside the span it
    returns, and leaves the length of the buffer as it was. *)
Theorem alloc_frame r a s a' :
  arena_ok a -> wf_type (req_type r) -> alloc r a = (Ok s, a') ->
  len a' = len a /\
  forall k : nat,
    Z.of_nat k < start s \/ start s + extent s <= Z.of_nat k ->
    buf a' !! k = buf a !! k.
Proof.
  intros Hok Hwf Halloc.
  destruct (alloc_returns r a s a' Hok Hwf Halloc)
    as (Hstart & Hext & _ & _ & _ & ->).
  split.
  - unfold len. simpl. now rewrite length_zero_fill.
  - intros k Hk. simpl. apply lookup_zero_fill_out.
    rewrite <- Hstart, <- Hext. exact Hk.
Qed.

(** X8. A call that returns keeps the arena invariant and moves the cursor
    forward only: it skips fewer bytes than the alignment of the type and
    leaves the cursor at the end of the span. *)
Theorem alloc_moves_cursor r a s a' :
  arena_ok a -> wf_type (req_type r) -> alloc r a = (Ok s, a') ->
  arena_ok a' /\
  0 <= start s - offset a < alignof (req_type r) /\
  offset a' = start s + req_bytes r /\
  offset a <= offset a'.
Proof.
  intros Hok Hwf Halloc.
  destruct (alloc_returns r a s a' Hok Hwf Halloc)
    as (Hstart & Hext & Hnn & _ & _ & Ha').
  destruct (alloc_returns_ok r a s a' Hok Hwf Halloc) as (Hok' & _).
  destruct Hok as [Hoff Hlen]. destruct Hwf as [Hsize Halign].
  destruct (padding_spec (offset a) (alignof (req_type r)))
    as [Hpad _]; [lia..|].
  subst a'. simpl. split; [assumption|]. lia.
Qed.

(** With room for [capacity] elements, [MakeSlice] takes the memory and
    clears it before it looks at [length]. *)
Lemma MakeSlice_fits T n capacity a :
  arena_ok a -> wf_type T -> 0 <= capacity ->
  let p := offset a + padding (offset a) (alignof T) in
  p < len a -> p + sizeof T * capacity <= len a ->
  MakeSlice T n capacity a =
  reslice {| data := p; slice_len := capacity; slice_cap := capacity |} n
    {| buf := zero_fill p (sizeof T * capacity) (buf a);
       offset := p + sizeof T * capacity |}.
Proof.
  intros [Hoff Hlen] [Hsize Halign] Hcap p Hin Hfit. subst p.
  destruct (padding_spec (offset a) (alignof T)) as [Hpad _]; [lia..|].
  assert (forall x, MinInt <= x <= MaxInt -> wrap x = x) as Hw
    by (intros; now apply wrap_small).
  assert (0 <= sizeof T * capacity) as Hnn by nia.
  unfold MinInt, MaxInt in *.
  rewrite MakeSlice_cases.
  rewrite !(Hw (offset a + padding _ _)) by lia.
  rewrite !(Hw (sizeof T * capacity)) by lia.
  rewrite !(Hw (_ + _ + _)) by lia.
  destruct (Z.ltb_spec (len a)
              (offset a + padding (offset a) (alignof T)
               + sizeof T * capacity)); [lia|].
  destruct (Z.leb_spec 0 (offset a + padding (offset a) (alignof T)));
    [|lia].
  destruct (Z.ltb_spec (offset a + padding (offset a) (alignof T)) (len a));
    [|lia].
  destruct (Z.ltb_spec capacity 0); [lia|].
  destruct (Z.ltb_spec MaxInt (sizeof T * capacity));
    [unfold MaxInt in *; lia|].
  simpl.
  rewrite zero_elems_in_bounds; simpl;
    [|lia|lia|rewrite Z2Nat.id by lia; unfold len in *; simpl; lia].
  rewrite Z2Nat.id by lia. rewrite Z.mul_0_l, Z.add_0_r.
  rewrite (Z.mul_comm capacity). reflexivity.
Qed.

(** X9. When [capacity] elements fit, [MakeSlice] returns the slice header
    (first element at the aligned cursor, [length], [capacity]) for
    [0 <= length <= capacity]; for any other [length] it panics in
    [s[:length]] with the memory already taken: the cursor has moved past
    the elements and their bytes have been cleared. *)
Theorem MakeSlice_length T n capacity a :
  arena_ok a -> wf_type T -> 0 <= capacity ->
  let p := offset a + padding (offset a) (alignof T) in
  let a' := {| buf := zero_fill p (sizeof T * capacity) (buf a);
               offset := p + sizeof T * capacity |} in
  p < len a -> p + sizeof T * capacity <= len a ->
  (0 <= n <= capacity ->
   MakeSlice T n capacity a =
   (Ok {| data := p; slice_len := n; slice_cap := capacity |}, a')) /\
  (n < 0 \/ capacity < n ->
   MakeSlice T n capacity a = (Panic "slice bounds out of range", a')).
Proof.
  intros Hok Hwf Hcap p a' Hin Hfit.
  rewrite (MakeSlice_fits T n capacity a Hok Hwf Hcap Hin Hfit).
  fold p. fold a'. unfold reslice. simpl.
  split; intros Hn.
  - destruct (Z.ltb_spec n 0); [lia|].
    destruct (Z.ltb_spec capacity n); [lia|]. reflexivity.
  - destruct (Z.ltb_spec n 0); [reflexivity|].
    destruct (Z.ltb_spec capacity n); [reflexivity|lia].
Qed.

(** X10. A request for zero bytes made when the aligned cursor is at the
    end of the buffer passes the capacity check and panics in
    [&a.buf[a.offset]] with an index error, not with "arena: out of
    memory"; the cursor stays at the end. *)
Theorem empty_request_at_end r a :
  arena_ok a -> wf_type (req_type r) ->
  offset a + padding (offset a) (alignof (req_type r)) = len a ->
  req_bytes r = 0 ->
  alloc r a = (Panic "index out of range",
               {| buf := buf a; offset := len a |}).
Proof.
  intros [Hoff Hlen] [Hsize Halign] Hend Hzero.
  assert (wrap (len a) = len a) as Hw
    by (apply wrap_small; unfold in_int, MinInt, MaxInt in *; lia).
  destruct r as [T | T n capacity]; simpl in *; unfold mbind, M_bind.
  - rewrite New_cases. rewrite Hend, Hzero, Hw, Z.add_0_r, Hw.
    rewrite Z.ltb_irrefl, andb_false_r. reflexivity.
  - rewrite MakeSlice_cases. rewrite Hend, Hzero, Hw.
    change (wrap 0) with 0. rewrite Z.add_0_r, Hw.
    rewrite Z.ltb_irrefl, andb_false_r. reflexivity.
Qed.

Lemma at_start_fresh_arena : at_start fresh_arena.
Proof.
  split; [reflexivity|].
  rewrite len_fresh_arena. unfold default_size, MaxInt. lia.
Qed.

(** X11. The pool holds arenas at the start of an epoch only: [Release]
    resets the arena before it puts it back, so whichever arena a later
    [Get] hands out (any of those held, or a new one of 64 MB) has its
    cursor at 0; a recycled arena comes back with the bytes it was
    released with.  [Acquire], which takes the first arena held, is one
    such [Get]. *)
Theorem pool_hands_out_reset_arenas pool a b pool' :
  pool_ok pool -> len a <= MaxInt ->
  pool_get (Release a pool) b pool' ->
  at_start b /\ pool_ok pool' /\
  (b = fresh_arena \/ b ∈ pool \/ (offset b = 0 /\ buf b = buf a)) /\
  pool_get (Release a pool) (Acquire (Release a pool)).1
           (Acquire (Release a pool)).2.
Proof.
  intros Hpool Hlen Hget.
  assert (pool_ok (Release a pool)) as Hok by now apply Release_pool_ok.
  split; [|split; [|split]].
  - destruct Hget as [i b Hi|]; [|apply at_start_fresh_arena].
    unfold pool_ok in Hok. rewrite Forall_lookup in Hok. exact (Hok i b Hi).
  - destruct Hget as [i b Hi|]; [|assumption].
    now apply Forall_delete.
  - destruct Hget as [i b Hi|]; [|now left]. right.
    destruct i as [|i]; simpl in Hi.
    + injection Hi as <-. right. split; reflexivity.
    + left. eapply list_elem_of_lookup_2. exact Hi.
  - simpl. apply (get_pooled (Release a pool) 0 (Reset a)). reflexivity.
Qed.

(** *** The concrete arenas *)

Example three_requests_fit : fits 0 three_requests (len stale_arena).
Proof. repeat split; vm_compute; congruence. Qed.

Example three_requests_run :
  alloc_seq three_requests (Reset stale_arena) =
  ([ {| start := 0; extent := 1; span_align := 1 |};
     {| start := 8; extent := 8; span_align := 8 |};
     {| start := 16; extent := 4; span_align := 1 |} ],
   {| buf := x00 :: replicate 7 xff ++ replicate 12 x00 ++ replicate 4 xff;
      offset := 20 |}).
Proof. reflexivity. Qed.

Example New_int_on_stale_arena :
  New int_type stale_arena =
  (Ok 8, {| buf := replicate 8 xff ++ replicate 8 x00 ++ replicate 8 xff;
            offset := 16 |}).
Proof. reflexivity. Qed.

(** [MakeSlice] with [length > capacity] panics in [s[:length]], after the
    cursor has moved and the bytes have been cleared. *)
Example MakeSlice_length_above_capacity :
  MakeSlice byte_type 5 3 stale_arena =
  (Panic "slice bounds out of range",
   {| buf := replicate 3 xff ++ replicate 3 x00 ++ replicate 18 xff;
      offset := 6 |}).
Proof. reflexivity. Qed.

(** [MakeSlice] with a negative capacity panics in [unsafe.Slice], after the
    cursor has moved back. *)
Example MakeSlice_negative_capacity :
  MakeSlice byte_type 0 (-2) stale_arena =
  (Panic "unsafe.Slice: len out of range",
   {| buf := buf stale_arena; offset := 1 |}).
Proof. reflexivity. Qed.

(** An empty request on a full arena panics in [&a.buf[a.offset]]. *)
Example empty_request_on_full_arena :
  New empty_struct_type {| buf := buf stale_arena; offset := 24 |} =
  (Panic "index out of range", {| buf := buf stale_arena; offset := 24 |}).
Proof. reflexivity. Qed.

Lemma spans_disjoint_aligned_witness :
  let spans := fst (alloc_seq three_requests (Reset stale_arena)) in
  (forall (i j : nat) si sj,
     (i < j)%nat -> spans !! i = Some si -> spans !! j = Some sj ->
     disjoint si sj) /\
  Forall aligned spans /\
  (fits 0 three_requests (len stale_arena) ->
   length spans = length three_requests).
Proof.
  apply (spans_disjoint_aligned stale_arena three_requests).
  - unfold len, MaxInt. simpl. lia.
  - repeat constructor; unfold MaxInt; simpl; lia.
Defined.


Example out_of_memory_on_stale_arena :
  alloc (ReqMakeSlice int_type 0 3) stale_arena
  = (Panic "arena: out of memory", stale_arena).
Proof. reflexivity. Qed.

Lemma alloc_zero_filled_witness :
  let s := {| start := 8; extent := 8; span_align := 8 |} in
  let a' := {| buf := replicate 8 xff ++ replicate 8 x00 ++ replicate 8 xff;
               offset := 16 |} in
  inside a' s /\ extent s = req_bytes (ReqNew int_type) /\ zeroed a' s.
Proof.
  apply (alloc_zero_filled (ReqNew int_type) stale_arena).
  - unfold arena_ok, len, MaxInt. simpl. lia.
  - unfold wf_type, MaxInt. simpl. lia.
  - reflexivity.
Defined.


Lemma epochs_overlap_witness :
  let s1 := {| start := 0; extent := 8; span_align := 8 |} in
  let s2 := {| start := 0; extent := 1; span_align := 1 |} in
  let a1 := {| buf := replicate 8 x00 ++ replicate 16 xff; offset := 8 |} in
  buf (Reset a1) = buf a1 /\
  start s1 = 0 /\ start s2 = 0 /\
  (0 < extent s1 -> 0 < extent s2 -> ~ disjoint s1 s2).
Proof.
  apply (epochs_overlap stale_arena (ReqNew int_type) (ReqNew byte_type)
           {| start := 0; extent := 8; span_align := 8 |}
           {| buf := replicate 8 x00 ++ replicate 16 xff; offset := 8 |}
           {| start := 0; extent := 1; span_align := 1 |}
           {| buf := replicate 8 x00 ++ replicate 16 xff; offset := 1 |}).
  - unfold len, MaxInt. simpl. lia.
  - unfold wf_type, MaxInt. simpl. lia.
  - unfold wf_type, MaxInt. simpl. lia.
  - reflexivity.
  - reflexivity.
Defined.

Lemma alloc_frame_witness :
  let s := {| start := 8; extent := 8; span_align := 8 |} in
  let a' := {| buf := replicate 8 xff ++ replicate 8 x00 ++ replicate 8 xff;
               offset := 16 |} in
  len a' = len stale_arena /\
  forall k : nat,
    Z.of_nat k < start s \/ start s + extent s <= Z.of_nat k ->
    buf a' !! k = buf stale_arena !! k.
Proof.
  apply (alloc_frame (ReqNew int_type) stale_arena).
  - unfold arena_ok, len, MaxInt. simpl. lia.
  - unfold wf_type, MaxInt. simpl. lia.
  - reflexivity.
Defined.

Lemma alloc_moves_cursor_witness :
  let s := {| start := 8; extent := 8; span_align := 8 |} in
  let a' := {| buf := replicate 8 xff ++ replicate 8 x00 ++ replicate 8 xff;
               offset := 16 |} in
  arena_ok a' /\
  0 <= start s - offset stale_arena < alignof (req_type (ReqNew int_type)) /\
  offset a' = start s + req_bytes (ReqNew int_type) /\
  offset stale_arena <= offset a'.
Proof.
  apply (alloc_moves_cursor (ReqNew int_type) stale_arena).
  - unfold arena_ok, len, MaxInt. simpl. lia.
  - unfold wf_type, MaxInt. simpl. lia.
  - reflexivity.
Defined.

Lemma MakeSlice_length_witness :
  let a' := {| buf := zero_fill 3 3 (buf stale_arena); offset := 6 |} in
  (0 <= 5 <= 3 ->
   MakeSlice byte_type 5 3 stale_arena =
   (Ok {| data := 3; slice_len := 5; slice_cap := 3 |}, a')) /\
  (5 < 0 \/ 3 < 5 ->
   MakeSlice byte_type 5 3 stale_arena =
   (Panic "slice bounds out of range", a')).
Proof.
  apply (MakeSlice_length byte_type 5 3 stale_arena).
  - unfold arena_ok, len, MaxInt. simpl. lia.
  - unfold wf_type, MaxInt. simpl. lia.
  - lia.
  - vm_compute. reflexivity.
  - vm_compute. discriminate.
Defined.

Lemma empty_request_at_end_witness :
  alloc (ReqMakeSlice int_type 0 0) nearly_full_arena =
  (Panic "index out of range",
   {| buf := buf nearly_full_arena; offset := len nearly_full_arena |}).
Proof.
  apply (empty_request_at_end (ReqMakeSlice int_type 0 0) nearly_full_arena).
  - unfold arena_ok, len, MaxInt. simpl. lia.
  - unfold wf_type, MaxInt. simpl. lia.
  - reflexivity.
  - reflexivity.
Defined.

Lemma pool_hands_out_reset_arenas_witness :
  at_start (Reset stale_arena) /\ pool_ok [] /\
  (Reset stale_arena = fresh_arena \/ Reset stale_arena ∈ [] \/
   (offset (Reset stale_arena) = 0 /\
    buf (Reset stale_arena) = buf stale_arena)) /\
  pool_get (Release stale_arena []) (Acquire (Release stale_arena [])).1
           (Acquire (Release stale_arena [])).2.
Proof.
  apply (pool_hands_out_reset_arenas [] stale_arena (Reset stale_arena) []).
  - constructor.
  - unfold len, MaxInt. simpl. lia.
  - apply (get_pooled (Release stale_arena []) 0 (Reset stale_arena)).
    reflexivity.
Defined.

End Arena.

(** ** pkg/zlog: the structured logger *)

Module Zlog.

(** A Go [string] is a sequence of bytes. *)
Definition bytes (s : string) : list byte := list_byte_of_string s.

(** [buf] holds the bytes of the slice [l.buf].  Which array backs the slice
    (the caller's, the arena's, or a fresh one when [append] grows it) does
    not bear on its content. *)
Record Logger : Type := mkLogger {
  buf : list byte
}.

Definition Wrap (b : list byte) : Logger := {| buf := b |}.

(** [New] takes an empty slice of capacity 4096 from the arena. *)
Definition New : Arena.M Logger :=
  s ← Arena.MakeSlice Arena.byte_type 0 4096;
  mret {| buf := [] |}.

(** *** [strconv.AppendInt(dst, i, 10)]

    Go's library function appends the decimal representation of [i]: the
    digits of its absolute value, most significant first, without leading
    zeros, after a minus sign when [i] is negative. *)

Definition digit (d : Z) : byte :=
  match d with
  | 0 => "0" | 1 => "1" | 2 => "2" | 3 => "3" | 4 => "4"
  | 5 => "5" | 6 => "6" | 7 => "7" | 8 => "8" | _ => "9"
  end%byte.

(** The digits of [u] put in front of [acc]; [fuel] bounds their number. *)
Fixpoint format_digits (fuel : nat) (u : Z) (acc : list byte) : list byte :=
  match fuel with
  | O => acc
  | S fuel' =>
      let acc' := digit (u mod 10) :: acc in
      if u <? 10 then acc' else format_digits fuel' (u / 10) acc'
  end.

(** A [uint64] has at most 20 decimal digits. *)
Definition decimal (i : Z) : list byte :=
  if i <? 0 then "-"%byte :: format_digits 20 (- i) []
  else format_digits 20 i [].

Definition AppendInt (dst : list byte) (i : Z) : list byte :=
  dst ++ decimal i.

(** Reading a decimal representation back. *)
Definition digit_value (b : byte) : Z := Z.of_N (Byte.to_N b) - 48.

Definition digits_value (ds : list byte) : Z :=
  fold_left (fun acc b => 10 * acc + digit_value b) ds 0.

Definition decimal_value (l : list byte) : Z :=
  match l with
  | "-"%byte :: ds => - digits_value ds
  | ds => digits_value ds
  end.

(** *** The logger's methods *)

Definition appendString (s : string) (l : Logger) : Logger :=
  {| buf := buf l ++ bytes s |}.

Definition appendInt (i : Z) (l : Logger) : Logger :=
  {| buf := AppendInt (buf l) i |}.

Definition newline : string := String "010"%char EmptyString.

(** Each method works on the logger it is called on and, but for [Msg],
    returns it. *)
Definition Int (key : string) (val : Z) (l : Logger) : Logger :=
  appendString " " (appendInt val (appendString "=" (appendString key l))).

Definition Str (key val : string) (l : Logger) : Logger :=
  appendString " "
    (appendString val (appendString "=" (appendString key l))).

Definition Msg (msg : string) (l : Logger) : Logger :=
  appendString newline (appendString msg (appendString "msg=" l)).

Definition Bytes (l : Logger) : list byte := buf l.

(** *** Records

    A log record is written by a chain of [Int] and [Str] calls closed by
    [Msg]; [token] is what one field contributes. *)

Inductive field : Type :=
| FInt (key : string) (val : Z)
| FStr (key : string) (val : string).

Definition add_field (l : Logger) (f : field) : Logger :=
  match f with
  | FInt key val => Int key val l
  | FStr key val => Str key val l
  end.

Definition token (f : field) : list byte :=
  match f with
  | FInt key val => bytes key ++ bytes "=" ++ decimal val ++ bytes " "
  | FStr key val => bytes key ++ bytes "=" ++ bytes val ++ bytes " "
  end.

Definition record (fields : list field) (msg : string) (l : Logger) : Logger :=
  Msg msg (fold_left add_field fields l).

(** *** Properties *)

Lemma digit_value_digit d : 0 <= d < 10 -> digit_value (digit d) = d.
Proof.
  intros Hd.
  assert (d = 0 \/ d = 1 \/ d = 2 \/ d = 3 \/ d = 4 \/
          d = 5 \/ d = 6 \/ d = 7 \/ d = 8 \/ d = 9) as Hcases by lia.
  repeat destruct Hcases as [-> | Hcases]; try reflexivity.
  subst. reflexivity.
Qed.

Lemma digits_value_snoc ds b :
  digits_value (ds ++ [b]) = 10 * digits_value ds + digit_value b.
Proof. unfold digits_value. now rewrite fold_left_app. Qed.

(** [format_digits] puts the digits of [u] in front of the accumulator. *)
Lemma format_digits_spec fuel : forall u acc,
  0 <= u < 10 ^ Z.of_nat fuel -> (0 < fuel)%nat ->
  exists ds,
    format_digits fuel u acc = ds ++ acc /\
    digits_value ds = u /\
    hd_error ds <> Some "-"%byte.
Proof.
  induction fuel as [|fuel IH]; intros u acc Hu Hfuel; [lia|].
  cbn [format_digits].
  pose proof (Z.mod_pos_bound u 10 ltac:(lia)) as Hmod.
  destruct (Z.ltb_spec u 10) as [Hsmall|Hbig].
  - exists [digit (u mod 10)]. split; [reflexivity|].
    rewrite Z.mod_small by lia. split.
    + unfold digits_value. simpl. rewrite digit_value_digit; lia.
    + assert (u = 0 \/ u = 1 \/ u = 2 \/ u = 3 \/ u = 4 \/
              u = 5 \/ u = 6 \/ u = 7 \/ u = 8 \/ u = 9) as Hcases by lia.
      repeat destruct Hcases as [-> | Hcases]; try discriminate.
      subst. discriminate.
  - destruct fuel as [|fuel].
    { change (10 ^ Z.of_nat 1) with 10 in Hu. lia. }
    destruct (IH (u / 10) (digit (u mod 10) :: acc)) as (ds & Heq & Hval & Hhd).
    + split; [apply Z.div_pos; lia|].
      apply Z.div_lt_upper_bound; [lia|].
      rewrite <- Z.pow_succ_r by lia.
      replace (Z.succ (Z.of_nat (S fuel))) with (Z.of_nat (S (S fuel))) by lia.
      lia.
    + lia.
    + exists (ds ++ [digit (u mod 10)]). split; [|split].
      * rewrite Heq, <- app_assoc. reflexivity.
      * rewrite digits_value_snoc, Hval, digit_value_digit by lia.
        pose proof (Z.div_mod u 10 ltac:(lia)). lia.
      * destruct ds as [|b ds]; [|exact Hhd].
        simpl in Hval. assert (u / 10 = 0) as Hz by (symmetry; exact Hval).
        apply Z.div_small_iff in Hz; lia.
Qed.

(** The rendering of an [int] reads back as that integer. *)
Lemma decimal_value_decimal i : in_int i -> decimal_value (decimal i) = i.
Proof.
  unfold in_int, MinInt, MaxInt, decimal. intros Hi.
  destruct (Z.ltb_spec i 0) as [Hneg|Hpos].
  - destruct (format_digits_spec 20 (- i) []) as (ds & -> & Hval & _);
      [change (10 ^ Z.of_nat 20) with 100000000000000000000; lia | lia |].
    rewrite app_nil_r. simpl. lia.
  - destruct (format_digits_spec 20 i []) as (ds & -> & Hval & Hhd);
      [change (10 ^ Z.of_nat 20) with 100000000000000000000; lia | lia |].
    rewrite app_nil_r. unfold decimal_value.
    destruct ds as [|b ds]; [assumption|].
    destruct (Byte.byte_eq_dec b "-"%byte) as [->|Hne]; [now elim Hhd|].
    destruct b; try assumption. now elim Hne.
Qed.

(** C6. From an empty buffer, [Int("ts", 7)], [Str("type", "order")],
    [Msg("processed")] leave exactly the bytes of
    ["ts=7 type=order msg=processed\n"]; in general [Int] and [Str] append
    [key=value ] (an integer in decimal, which reads back as the integer)
    and [Msg] appends [msg=<text>\n]. *)
Theorem logger_output :
  Bytes (Msg "processed" (Str "type" "order" (Int "ts" 7 (Wrap [])))) =
    bytes "ts=7 type=order msg=processed" ++ [x0a] /\
  (forall l key val,
     Bytes (Int key val l) =
     Bytes l ++ bytes key ++ bytes "=" ++ decimal val ++ bytes " ") /\
  (forall val, in_int val -> decimal_value (decimal val) = val) /\
  (forall l key val,
     Bytes (Str key val l) =
     Bytes l ++ bytes key ++ bytes "=" ++ bytes val ++ bytes " ") /\
  (forall l msg,
     Bytes (Msg msg l) = Bytes l ++ bytes "msg=" ++ bytes msg ++ [x0a]).
Proof.
  split; [reflexivity|]. split; [|split; [|split]].
  - intros l key val. unfold Int, appendString, appendInt, AppendInt, Bytes.
    simpl. now rewrite <- !app_assoc.
  - apply decimal_value_decimal.
  - intros l key val. unfold Str, appendString, Bytes.
    simpl. now rewrite <- !app_assoc.
  - intros l msg. unfold Msg, appendString, Bytes.
    simpl. now rewrite <- !app_assoc.
Qed.

(** *** More on the logger *)

Lemma bytes_append s1 s2 :
  bytes (String.append s1 s2) = bytes s1 ++ bytes s2.
Proof.
  unfold bytes, list_byte_of_string.
  induction s1 as [|c s1 IH]; simpl; [reflexivity|]. now rewrite IH.
Qed.

Lemma Bytes_add_field l f : Bytes (add_field l f) = Bytes l ++ token f.
Proof.
  destruct f as [key val|key val];
    unfold Bytes, add_field, token, Int, Str, appendString, appendInt,
      AppendInt; simpl; now rewrite <- !app_assoc.
Qed.

(** X12. [New] takes 4096 bytes from the arena at the cursor (a byte needs
    no padding) and returns a logger with an empty buffer; when fewer than
    4096 bytes are left it panics with "arena: out of memory" and leaves
    the arena as it was. *)
Theorem New_takes_4096 a :
  Arena.arena_ok a -> Arena.len a + 4097 <= MaxInt ->
  (Arena.offset a + 4096 <= Arena.len a ->
   New a = (Ok {| buf := [] |},
            {| Arena.buf := Arena.zero_fill (Arena.offset a) 4096 (Arena.buf a);
               Arena.offset := Arena.offset a + 4096 |})) /\
  (Arena.len a < Arena.offset a + 4096 ->
   New a = (Panic "arena: out of memory", a)).
Proof.
  intros Hok Hlen.
  assert (Arena.padding (Arena.offset a) 1 = 0) as Hpad
    by (unfold Arena.padding; apply Z.rem_1_r).
  assert (Arena.wf_type Arena.byte_type) as Hwf
    by (unfold Arena.wf_type, MaxInt; simpl; lia).
  unfold New, mbind, Arena.M_bind. split; intros Hroom.
  - rewrite Arena.MakeSlice_fits; try assumption; simpl; rewrite ?Hpad; try lia.
    unfold Arena.reslice. simpl. rewrite Z.add_0_r. reflexivity.
  - pose proof (Arena.alloc_over_capacity
                  (Arena.ReqMakeSlice Arena.byte_type 0 4096) a Hok Hwf)
      as Halloc.
    simpl in Halloc. rewrite Hpad in Halloc.
    specialize (Halloc ltac:(unfold Arena.no_overflow, MinInt, MaxInt in *;
                             simpl; lia) ltac:(lia)).
    unfold mbind, Arena.M_bind in Halloc.
    destruct (Arena.MakeSlice Arena.byte_type 0 4096 a) as [[sl|msg] a1].
    + discriminate Halloc.
    + injection Halloc as -> ->. reflexivity.
Qed.

(** X13. A record is the concatenation of its parts: a chain of [Int] and
    [Str] calls closed by [Msg] appends, to what the buffer held, each
    field's [key=value ] in the order of the calls and then
    [msg=<text>\n]; what the buffer held stays in front. *)
Theorem record_bytes (fields : list field) msg l :
  Bytes (record fields msg l) =
  Bytes l ++ concat (token <$> fields) ++ bytes "msg=" ++ bytes msg ++ [x0a].
Proof.
  unfold record. revert l.
  induction fields as [|f fields IH]; intros l.
  - unfold Msg, appendString, Bytes. simpl. now rewrite <- !app_assoc.
  - cbn [fold_left fmap list_fmap concat]. rewrite IH, Bytes_add_field.
    now rewrite <- !app_assoc.
Qed.

(** X14. Nothing is escaped: a string value that contains a space and an
    equals sign leaves the same bytes as two fields do, so the output does
    not tell how many fields were written. *)
Theorem fields_not_escaped key1 val1 key2 val2 l :
  Bytes (Str key2 val2 (Str key1 val1 l)) =
  Bytes (Str key1
           (String.append val1
              (String.append " " (String.append key2 (String.append "=" val2))))
           l).
Proof.
  unfold Str, appendString, Bytes. cbn [buf].
  rewrite !bytes_append, <- !app_assoc. reflexivity.
Qed.

Example decimal_examples :
  decimal 0 = bytes "0" /\ decimal 1024 = bytes "1024" /\
  decimal (-45) = bytes "-45" /\
  decimal MaxInt = bytes "9223372036854775807" /\
  decimal MinInt = bytes "-9223372036854775808".
Proof. repeat split; reflexivity. Qed.

Lemma New_takes_4096_witness :
  let a := {| Arena.buf := replicate 5000 xff; Arena.offset := 1000 |} in
  (Arena.offset a + 4096 <= Arena.len a ->
   New a = (Ok {| buf := [] |},
            {| Arena.buf := Arena.zero_fill (Arena.offset a) 4096 (Arena.buf a);
               Arena.offset := Arena.offset a + 4096 |})) /\
  (Arena.len a < Arena.offset a + 4096 ->
   New a = (Panic "arena: out of memory", a)).
Proof.
  apply (New_takes_4096 {| Arena.buf := replicate 5000 xff;
                           Arena.offset := 1000 |}).
  - unfold Arena.arena_ok, Arena.len, MaxInt. cbn [Arena.buf Arena.offset].
    rewrite length_replicate. lia.
  - unfold Arena.len, MaxInt. cbn [Arena.buf]. rewrite length_replicate. lia.
Defined.

End Zlog.

(** ** pkg/core: the worker's handlers *)

Module Core.

(** *** [float64]

    IEEE 754 binary64 values with the Standard Library's executable
    operations on them (round to nearest, ties to even). *)

Definition float64 : Type := spec_float.

Definition prec : Z := 53.
Definition emax : Z := 1024.

Definition fadd (x y : float64) : float64 := SFadd prec emax x y.
Definition fmul (x y : float64) : float64 := SFmul prec emax x y.

(** The conversion [float64(i)] of an [int]. *)
Definition float64_of_int (i : Z) : float64 :=
  binary_normalize prec emax i 0 false.

Definition fzero : float64 := S754_zero false.

(** *** Tasks and results *)

Definition TaskTypeCalc : Z := 0.
Definition TaskTypeOrder : Z := 1.

(** A channel is named by a number. *)
Definition chan : Type := nat.

(** [Type_] is the field [Type]; [LogBuf] is [None] for a nil slice. *)
Record Task : Type := mkTask {
  Type_ : Z;
  Value : Z;
  Price : float64;
  Quantity : Z;
  Resp : chan;
  LogBuf : option (list byte)
}.

#[global] Instance Task_Zero : Zero Task :=
  {| Type_ := 0; Value := 0; Price := fzero; Quantity := 0;
     Resp := O; LogBuf := None |}.

Record OrderResult : Type := mkOrderResult {
  Total : float64;
  ProcessedAt : Z;
  Log : option (list byte)
}.

(** The values that travel on a [chan any]. *)
Inductive any : Type :=
| AnyInt (v : Z)
| AnyOrderResult (r : OrderResult).

(** [ch <- v] *)
Definition send : Type := (chan * any)%type.

Record Engine : Type := mkEngine {
  Queue : Fastqueue.RingBuffer Task;
  Mem : Arena.Arena;
  UserVolume : list float64   (* [1024]float64 *)
}.

Definition with_LogBuf (t : Task) (b : option (list byte)) : Task :=
  {| Type_ := Type_ t; Value := Value t; Price := Price t;
     Quantity := Quantity t; Resp := Resp t; LogBuf := b |}.

(** [NewEngine]; the arena comes from the pool. *)
Definition NewEngine (pool : list Arena.Arena)
  : result Engine * list Arena.Arena :=
  match Fastqueue.New 1024 with
  | Ok q =>
      let (mem, pool') := Arena.Acquire pool in
      (Ok {| Queue := q; Mem := mem; UserVolume := replicate 1024 fzero |},
       pool')
  | Panic msg => (Panic msg, pool)
  end.

(** *** The worker's state, and code that may panic *)

Definition E (A : Type) : Type := Engine -> result A * Engine.

#[global] Instance E_ret : MRet E := fun A x e => (Ok x, e).

#[global] Instance E_bind : MBind E := fun A B f m e =>
  match m e with
  | (Ok x, e') => f x e'
  | (Panic msg, e') => (Panic msg, e')
  end.

(** A computation on the arena [e.Mem]. *)
Definition in_mem {A : Type} (m : Arena.M A) : E A := fun e =>
  let (r, mem') := m (Mem e) in
  (r, {| Queue := Queue e; Mem := mem'; UserVolume := UserVolume e |}).

(** [*p = v] for [p *int] into the arena: eight bytes, little endian, two's
    complement.  Outside the buffer the store is undefined behaviour,
    reported as a fault. *)
Definition store_int (p v : Z) : Arena.M unit := fun a =>
  if (0 <=? p) && (p + 8 <=? Arena.len a)
  then (Ok tt,
        {| Arena.buf := take (Z.to_nat p) (Arena.buf a) ++ le_split 8 v
                        ++ drop (Z.to_nat (p + 8)) (Arena.buf a);
           Arena.offset := Arena.offset a |})
  else (Panic "fault: store outside the buffer", a).

(** [*p] for [p *int]. *)
Definition load_int (p : Z) : Arena.M Z := fun a =>
  if (0 <=? p) && (p + 8 <=? Arena.len a)
  then (Ok (wrap (le_combine (take 8 (drop (Z.to_nat p) (Arena.buf a))))), a)
  else (Panic "fault: load outside the buffer", a).

(** [e.UserVolume[i] += x]; the index is bounds-checked. *)
Definition add_volume (i : Z) (x : float64) : E unit := fun e =>
  match UserVolume e !! Z.to_nat i with
  | Some old =>
      if 0 <=? i then
        (Ok tt, {| Queue := Queue e; Mem := Mem e;
                   UserVolume := <[Z.to_nat i := fadd old x]> (UserVolume e) |})
      else (Panic "index out of range", e)
  | None => (Panic "index out of range", e)
  end.

(** *** [process]

    [now] is what [sysclock.Now()] reads.  The value is the sends on the
    task's completion channel. *)
Definition process (now : Z) (t : Task) : E (list send) :=
  if Type_ t =? TaskTypeCalc then
    tempPtr ← in_mem (Arena.New Arena.int_type);
    in_mem (store_int tempPtr (wrap (Value t * 2)));;
    v ← in_mem (load_int tempPtr);
    add_volume 0 (float64_of_int v);;
    v' ← in_mem (load_int tempPtr);
    mret [(Resp t, AnyInt v')]
  else if Type_ t =? TaskTypeOrder then
    let ts := now in
    let total := fmul (Price t) (float64_of_int (Quantity t)) in
    let userID := Z.land (Value t) 1023 in
    add_volume userID total;;
    let logBytes :=
      match LogBuf t with
      | Some b =>
          let logger := Zlog.Wrap b in
          let logger :=
            Zlog.Msg "processed"
              (Zlog.Int "uid" userID
                 (Zlog.Str "type" "order" (Zlog.Int "ts" ts logger))) in
          Some (Zlog.Bytes logger)
      | None => None
      end in
    mret [(Resp t,
           AnyOrderResult
             {| Total := total; ProcessedAt := ts; Log := logBytes |})]
  else mret [].

(** One round of the loop in [Start]: pop a task, process it, reset the
    arena; on an empty queue the worker yields and tries again. *)
Definition round (now : Z) : E (list send) := fun e =>
  match Fastqueue.Pop (Queue e) with
  | Ok (q, (task, true)) =>
      match process now task
              {| Queue := q; Mem := Mem e; UserVolume := UserVolume e |} with
      | (Ok out, e') =>
          (Ok out, {| Queue := Queue e'; Mem := Arena.Reset (Mem e');
                      UserVolume := UserVolume e' |})
      | (Panic msg, e') => (Panic msg, e')
      end
  | Ok (q, (_, false)) =>
      (Ok [], {| Queue := q; Mem := Mem e; UserVolume := UserVolume e |})
  | Panic msg => (Panic msg, e)
  end.

(** The worker between two tasks: the arena is at the start of an epoch and
    holds at least an [int], the state table has its 1024 slots, the queue
    is as [Push] and [Pop] keep it. *)
Definition ready (e : Engine) : Prop :=
  Arena.at_start (Mem e) /\ 8 <= Arena.len (Mem e) /\
  length (UserVolume e) = 1024%nat /\
  Fastqueue.wf (Queue e).

(** The value of a slot of the state table. *)
Definition volume (uv : list float64) (i : Z) : float64 :=
  default fzero (uv !! Z.to_nat i).

(** *** The loop, round after round *)

Definition with_Queue (e : Engine) (q : Fastqueue.RingBuffer Task) : Engine :=
  {| Queue := q; Mem := Mem e; UserVolume := UserVolume e |}.

(** As many rounds of the loop as there are clock readings. *)
Fixpoint serve (nows : list Z) : E (list send) :=
  match nows with
  | [] => mret []
  | now :: nows' =>
      out ← round now;
      outs ← serve nows';
      mret (out ++ outs)
  end.

(** [e.Mem.Reset()] *)
Definition reset_mem : E unit := fun e =>
  (Ok tt, {| Queue := Queue e; Mem := Arena.Reset (Mem e);
             UserVolume := UserVolume e |}).

(** What the loop does with one task once it has it, and with a list of
    tasks handed to it one after the other, without the queue. *)
Definition handle (now : Z) (t : Task) : E (list send) :=
  out ← process now t;
  reset_mem;;
  mret out.

Fixpoint handle_all (jobs : list (Z * Task)) : E (list send) :=
  match jobs with
  | [] => mret []
  | (now, t) :: jobs' =>
      out ← handle now t;
      outs ← handle_all jobs';
      mret (out ++ outs)
  end.

(** A computation that neither reads nor writes the queue. *)
Definition queue_free {A : Type} (m : E A) : Prop :=
  forall e q,
    m (with_Queue e q) = (let (r, e') := m e in (r, with_Queue e' q)).

(** *** A concrete engine *)

Definition queue0 : Fastqueue.RingBuffer Task :=
  {| Fastqueue.buffer := replicate 1024 zero;
     Fastqueue.size := 1024; Fastqueue.mask := 1023;
     Fastqueue.head := 0; Fastqueue.tail := 0 |}.

Definition arena64 : Arena.Arena :=
  {| Arena.buf := replicate 64 x00; Arena.offset := 0 |}.

(** An engine on an arena of 64 bytes. *)
Definition engine0 : Engine :=
  {| Queue := queue0; Mem := arena64; UserVolume := replicate 1024 fzero |}.

Definition calc_task (v : Z) : Task :=
  {| Type_ := TaskTypeCalc; Value := v; Price := fzero; Quantity := 0;
     Resp := 1%nat; LogBuf := None |}.

Definition order_task (price : float64) (quantity id : Z)
    (b : option (list byte)) : Task :=
  {| Type_ := TaskTypeOrder; Value := id; Price := price;
     Quantity := quantity; Resp := 2%nat; LogBuf := b |}.

(** [engine0] with a scale task and an aggregate task waiting. *)
Definition queue2 : Fastqueue.RingBuffer Task :=
  {| Fastqueue.buffer :=
       calc_task 50 :: order_task (float64_of_int 100) 5 1 (Some [])
       :: replicate 1022 zero;
     Fastqueue.size := 1024; Fastqueue.mask := 1023;
     Fastqueue.head := 2; Fastqueue.tail := 0 |}.

Definition engine2 : Engine :=
  {| Queue := queue2; Mem := arena64; UserVolume := replicate 1024 fzero |}.

(** A task of a type that [process] does not know. *)
Definition odd_task : Task :=
  {| Type_ := 7; Value := 50; Price := fzero; Quantity := 0;
     Resp := 3%nat; LogBuf := None |}.

(** *** An [int] in the arena *)

Lemma wrap_mod z : wrap (z mod 2 ^ 64) = wrap z.
Proof. unfold wrap. now rewrite Zplus_mod_idemp_l. Qed.

Lemma load_store_int p v a :
  0 <= p -> p + 8 <= Arena.len a -> in_int v ->
  exists a',
    store_int p v a = (Ok tt, a') /\ load_int p a' = (Ok v, a') /\
    Arena.offset a' = Arena.offset a /\ Arena.len a' = Arena.len a.
Proof.
  intros Hp Hlen Hv. unfold store_int.
  destruct (Z.leb_spec 0 p); [|lia].
  destruct (Z.leb_spec (p + 8) (Arena.len a)); [|lia]. cbn [andb].
  eexists. split; [reflexivity|].
  assert (length (take (Z.to_nat p) (Arena.buf a)) = Z.to_nat p) as Htake
    by (unfold Arena.len in *; rewrite length_take; lia).
  match goal with
  | |- context [load_int p ?st] =>
      assert (Arena.len st = Arena.len a) as Hlen'
  end.
  { unfold Arena.len in *. cbn [Arena.buf].
    rewrite !length_app, Htake, length_le_split, length_drop. lia. }
  split; [|split; [reflexivity|exact Hlen']].
  unfold load_int. rewrite Hlen'.
  destruct (Z.leb_spec 0 p); [|lia].
  destruct (Z.leb_spec (p + 8) (Arena.len a)); [|lia]. cbn [andb Arena.buf].
  rewrite drop_app_length' by (symmetry; exact Htake).
  rewrite take_app_length' by (symmetry; apply length_le_split).
  rewrite le_combine_split. change (Z.of_nat 8 * 8) with 64.
  rewrite wrap_mod, wrap_small by assumption. reflexivity.
Qed.

(** *** The two handlers *)

Lemma land_1023_range v : 0 <= Z.land v 1023 < 1024.
Proof.
  change 1023 with (Z.ones 10). rewrite Z.land_ones by lia.
  apply Z.mod_pos_bound. lia.
Qed.

Lemma add_volume_in_range i x e :
  0 <= i < Z.of_nat (length (UserVolume e)) ->
  add_volume i x e =
  (Ok tt, {| Queue := Queue e; Mem := Mem e;
             UserVolume := <[Z.to_nat i := fadd (volume (UserVolume e) i) x]>
                             (UserVolume e) |}).
Proof.
  intros Hi. unfold add_volume, volume.
  destruct (lookup_lt_is_Some_2 (UserVolume e) (Z.to_nat i) ltac:(lia))
    as [old ->].
  destruct (Z.leb_spec 0 i); [reflexivity|lia].
Qed.

Lemma E_bind_ok {A B : Type} (m : E A) (f : A -> E B) e x e' :
  m e = (Ok x, e') -> (m ≫= f) e = f x e'.
Proof. intros H. unfold mbind, E_bind. now rewrite H. Qed.

Lemma in_mem_ok {A : Type} (m : Arena.M A) e x a' :
  m (Mem e) = (Ok x, a') ->
  in_mem m e =
  (Ok x, {| Queue := Queue e; Mem := a'; UserVolume := UserVolume e |}).
Proof. intros H. unfold in_mem. now rewrite H. Qed.

(** The scale handler. *)
Lemma process_calc now t e :
  ready e -> Type_ t = TaskTypeCalc ->
  exists mem',
    Arena.len mem' = Arena.len (Mem e) /\
    process now t e =
    (Ok [(Resp t, AnyInt (wrap (Value t * 2)))],
     {| Queue := Queue e; Mem := mem';
        UserVolume :=
          <[0%nat := fadd (volume (UserVolume e) 0)
                       (float64_of_int (wrap (Value t * 2)))]>
            (UserVolume e) |}).
Proof.
  intros ((Hoff & Hmax) & Hlen & Huv & _) Htype.
  unfold process. rewrite Htype. change (TaskTypeCalc =? TaskTypeCalc) with true.
  cbv iota.
  assert (Arena.New Arena.int_type (Mem e) =
          (Ok 0, {| Arena.buf := Arena.zero_fill 0 8 (Arena.buf (Mem e));
                    Arena.offset := 8 |})) as HNew.
  { pose proof (Arena.New_fits Arena.int_type (Mem e)) as HN.
    rewrite Hoff in HN. change (Arena.padding 0 _) with 0 in HN.
    apply HN.
    - unfold Arena.arena_ok. lia.
    - unfold Arena.wf_type, MaxInt. simpl. lia.
    - lia.
    - simpl. lia. }
  set (a1 := {| Arena.buf := Arena.zero_fill 0 8 (Arena.buf (Mem e));
                Arena.offset := 8 |}) in *.
  assert (Arena.len a1 = Arena.len (Mem e)) as Hlen1.
  { unfold Arena.len, a1. simpl. now rewrite Arena.length_zero_fill. }
  destruct (load_store_int 0 (wrap (Value t * 2)) a1)
    as (a2 & Hstore & Hload & _ & Hlen2); [lia | lia | apply wrap_range |].
  exists a2. split; [congruence|].
  erewrite E_bind_ok by (apply in_mem_ok; exact HNew).
  erewrite E_bind_ok by (apply in_mem_ok; exact Hstore).
  erewrite E_bind_ok by (apply in_mem_ok; exact Hload).
  erewrite E_bind_ok by (apply add_volume_in_range; simpl; lia).
  erewrite E_bind_ok by (apply in_mem_ok; exact Hload).
  reflexivity.
Qed.

(** The aggregate handler. *)
Lemma process_order now t e :
  length (UserVolume e) = 1024%nat -> Type_ t = TaskTypeOrder ->
  let total := fmul (Price t) (float64_of_int (Quantity t)) in
  let userID := Z.land (Value t) 1023 in
  process now t e =
  (Ok [(Resp t,
        AnyOrderResult
          {| Total := total;
             ProcessedAt := now;
             Log := match LogBuf t with
                    | Some b =>
                        Some (Zlog.Bytes
                                (Zlog.Msg "processed"
                                   (Zlog.Int "uid" userID
                                      (Zlog.Str "type" "order"
                                         (Zlog.Int "ts" now (Zlog.Wrap b))))))
                    | None => None
                    end |})],
   {| Queue := Queue e; Mem := Mem e;
      UserVolume := <[Z.to_nat userID := fadd (volume (UserVolume e) userID)
                                           total]> (UserVolume e) |}).
Proof.
  intros Huv Htype total userID.
  pose proof (land_1023_range (Value t)) as Hid.
  unfold process. rewrite Htype. simpl.
  unfold mbind, E_bind.
  rewrite add_volume_in_range by (fold userID; lia).
  reflexivity.
Qed.

Lemma engine0_ready : ready engine0.
Proof.
  split; [|split; [|split]].
  - split; [reflexivity|]. vm_compute. discriminate.
  - vm_compute. discriminate.
  - reflexivity.
  - constructor; try (vm_compute; intuition discriminate).
    right. exists 10. split; [lia | reflexivity].
Qed.

(** *** The worker's loop *)

(** On a ready engine every task is processed without panic; the queue is
    not touched, the arena keeps its length and the table its slots. *)
Lemma process_total now t e :
  ready e ->
  exists out e',
    process now t e = (Ok out, e') /\
    Queue e' = Queue e /\
    Arena.len (Mem e') = Arena.len (Mem e) /\
    length (UserVolume e') = 1024%nat.
Proof.
  intros Hready. pose proof Hready as (_ & _ & Huv & _).
  destruct (Z.eq_dec (Type_ t) TaskTypeCalc) as [Hcalc|Hncalc].
  - destruct (process_calc now t e Hready Hcalc) as (mem' & Hlen & ->).
    do 2 eexists. split; [reflexivity|]. simpl.
    rewrite length_insert. auto.
  - destruct (Z.eq_dec (Type_ t) TaskTypeOrder) as [Horder|Hnorder].
    + rewrite (process_order now t e Huv Horder).
      do 2 eexists. split; [reflexivity|]. simpl.
      rewrite length_insert. auto.
    + unfold process.
      destruct (Z.eqb_spec (Type_ t) TaskTypeCalc); [contradiction|].
      destruct (Z.eqb_spec (Type_ t) TaskTypeOrder); [contradiction|].
      do 2 eexists. split; [reflexivity|]. auto.
Qed.

(** A round of the loop takes a ready engine to a ready engine. *)
Lemma round_ready now e :
  ready e -> exists out e', round now e = (Ok out, e') /\ ready e'.
Proof.
  intros Hready. pose proof Hready as ((Hoff & Hmax) & Hlen & Huv & Hwf).
  unfold round.
  destruct (Z_lt_le_dec (Fastqueue.tail (Queue e)) (Fastqueue.head (Queue e)))
    as [Hsome|Hempty].
  - destruct (Fastqueue.Pop_some (Queue e) Hwf Hsome)
      as (q & task & -> & Hwfq & _).
    set (e1 := {| Queue := q; Mem := Mem e; UserVolume := UserVolume e |}).
    assert (ready e1) as Hready1
      by (split; [split; assumption|]; split; [assumption|];
          split; assumption).
    destruct (process_total now task e1 Hready1)
      as (out & e2 & -> & Hq & Hlen2 & Huv2).
    do 2 eexists. split; [reflexivity|].
    split; [|split; [|split]]; simpl.
    + apply Arena.Reset_at_start. simpl in Hlen2. lia.
    + unfold Arena.len, Arena.Reset in *. simpl in *. lia.
    + assumption.
    + now rewrite Hq.
  - rewrite Fastqueue.Pop_empty by assumption.
    do 2 eexists. split; [reflexivity|]. destruct e. exact Hready.
Qed.

(** [NewEngine] on a pool of arenas at the start of an epoch builds a
    ready engine. *)
Lemma NewEngine_ready pool :
  Arena.pool_ok pool -> Forall (fun a => 8 <= Arena.len a) pool ->
  exists e pool', NewEngine pool = (Ok e, pool') /\ ready e.
Proof.
  intros Hpool Hbig. unfold NewEngine.
  change (Fastqueue.New 1024) with (Ok queue0).
  destruct (Arena.Acquire pool) as [mem pool'] eqn:Hget.
  destruct (Arena.Acquire_at_start pool mem pool' Hpool Hget) as [Hstart _].
  do 2 eexists. split; [reflexivity|].
  split; [exact Hstart|]. split; [|split].
  - destruct pool as [|a pool0]; cbn [Arena.Acquire] in Hget;
      injection Hget as <- <-.
    + cbn [Mem]. rewrite Arena.len_fresh_arena.
      unfold Arena.default_size. lia.
    + inversion Hbig; subst. assumption.
  - reflexivity.
  - exact (proj2 (proj2 (proj2 engine0_ready))).
Qed.

(** *** The handlers' properties *)

(** C5, amended.  A scale task sends on its completion channel twice its
    value wrapped to a 64-bit signed [int] (exactly [2*v] for
    [-2^62 <= v < 2^62]) and adds the [float64] of what it sends to slot 0
    of the state table; two aggregate tasks with the same id each add
    their total, price times quantity, to the same slot, the one at
    [id & 1023], and send that total. *)
Theorem dispatch_correct now1 now2 now3 e calc o1 o2 :
  ready e ->
  Type_ calc = TaskTypeCalc ->
  Type_ o1 = TaskTypeOrder -> Type_ o2 = TaskTypeOrder ->
  Value o1 = Value o2 ->
  let r := wrap (Value calc * 2) in
  let total1 := fmul (Price o1) (float64_of_int (Quantity o1)) in
  let total2 := fmul (Price o2) (float64_of_int (Quantity o2)) in
  let id := Z.land (Value o1) 1023 in
  (exists e',
     process now1 calc e = (Ok [(Resp calc, AnyInt r)], e') /\
     UserVolume e' =
       <[0%nat := fadd (volume (UserVolume e) 0) (float64_of_int r)]>
         (UserVolume e)) /\
  (- 2 ^ 62 <= Value calc < 2 ^ 62 -> r = 2 * Value calc) /\
  (exists e1 e2 log1 log2,
     process now2 o1 e =
       (Ok [(Resp o1, AnyOrderResult {| Total := total1; ProcessedAt := now2;
                                        Log := log1 |})], e1) /\
     process now3 o2 e1 =
       (Ok [(Resp o2, AnyOrderResult {| Total := total2; ProcessedAt := now3;
                                        Log := log2 |})], e2) /\
     0 <= id < 1024 /\
     UserVolume e2 =
       <[Z.to_nat id := fadd (fadd (volume (UserVolume e) id) total1) total2]>
         (UserVolume e)).
Proof.
  intros Hready Hcalc Ho1 Ho2 Hid r total1 total2 id.
  pose proof Hready as (_ & _ & Huv & _).
  pose proof (land_1023_range (Value o1)) as Hrange. fold id in Hrange.
  split; [|split].
  - destruct (process_calc now1 calc e Hready Hcalc) as (mem' & _ & Hp).
    eexists. split; [exact Hp|reflexivity].
  - intros Hv. unfold r. rewrite wrap_small; [lia|].
    unfold in_int, MinInt, MaxInt. lia.
  - do 4 eexists. split; [apply process_order; assumption|].
    split; [apply process_order; [|assumption]|split; [assumption|]].
    + simpl. now rewrite length_insert.
    + simpl. rewrite <- Hid. fold id.
      rewrite list_insert_insert_eq. f_equal. f_equal.
      unfold volume at 1. rewrite list_lookup_insert_eq by lia. reflexivity.
Qed.

(** C10. An aggregate task with a nil [LogBuf] is answered with a nil
    [Log]; its [Total] and [ProcessedAt], and the state it leaves, are
    those of the same task with a buffer. *)
Theorem nil_log_buffer now t e b :
  length (UserVolume e) = 1024%nat ->
  Type_ t = TaskTypeOrder -> LogBuf t = None ->
  exists total e' lg,
    total = fmul (Price t) (float64_of_int (Quantity t)) /\
    process now t e =
      (Ok [(Resp t, AnyOrderResult {| Total := total; ProcessedAt := now;
                                      Log := None |})], e') /\
    process now (with_LogBuf t (Some b)) e =
      (Ok [(Resp t, AnyOrderResult {| Total := total; ProcessedAt := now;
                                      Log := Some lg |})], e').
Proof.
  intros Huv Htype Hnil.
  do 3 eexists. split; [reflexivity|]. split.
  - rewrite (process_order now t e Huv Htype). rewrite Hnil. reflexivity.
  - rewrite (process_order now (with_LogBuf t (Some b)) e Huv Htype).
    reflexivity.
Qed.

(** *** More on the handlers and the loop *)

Lemma queue_free_ret {A : Type} (x : A) : queue_free (mret x).
Proof. intros e q. reflexivity. Qed.

Lemma queue_free_bind {A B : Type} (m : E A) (f : A -> E B) :
  queue_free m -> (forall x, queue_free (f x)) -> queue_free (m ≫= f).
Proof.
  intros Hm Hf e q. unfold mbind, E_bind. rewrite Hm.
  destruct (m e) as [[x|msg] e1]; [apply Hf | reflexivity].
Qed.

Lemma queue_free_in_mem {A : Type} (m : Arena.M A) : queue_free (in_mem m).
Proof.
  intros e q. unfold in_mem, with_Queue. simpl.
  destruct (m (Mem e)) as [r mem']. reflexivity.
Qed.

Lemma queue_free_add_volume i x : queue_free (add_volume i x).
Proof.
  intros e q. unfold add_volume, with_Queue. simpl.
  destruct (UserVolume e !! Z.to_nat i); [|reflexivity].
  destruct (0 <=? i); reflexivity.
Qed.

Lemma queue_free_reset_mem : queue_free reset_mem.
Proof. intros e q. reflexivity. Qed.

Ltac solve_queue_free :=
  repeat first
    [ apply queue_free_ret | apply queue_free_in_mem
    | apply queue_free_add_volume | apply queue_free_reset_mem
    | apply queue_free_bind | intro ].

Lemma queue_free_process now t : queue_free (process now t).
Proof.
  unfold process. cbv zeta.
  destruct (Type_ t =? TaskTypeCalc); [solve_queue_free|].
  destruct (Type_ t =? TaskTypeOrder); solve_queue_free.
Qed.

Lemma queue_free_handle now t : queue_free (handle now t).
Proof.
  unfold handle. apply queue_free_bind; [apply queue_free_process|].
  solve_queue_free.
Qed.

Lemma queue_free_handle_all jobs : queue_free (handle_all jobs).
Proof.
  induction jobs as [|[now t] jobs IH]; cbn [handle_all].
  - apply queue_free_ret.
  - apply queue_free_bind; [apply queue_free_handle|]. intros out.
    apply queue_free_bind; [exact IH|]. intros outs. apply queue_free_ret.
Qed.

(** Handling a task leaves a ready engine ready. *)
Lemma handle_ready now t e :
  ready e ->
  exists out e' e'',
    process now t e = (Ok out, e') /\
    handle now t e = (Ok out, e'') /\ ready e''.
Proof.
  intros Hready. pose proof Hready as ((Hoff & Hmax) & Hlen8 & Huv & Hwf).
  destruct (process_total now t e Hready)
    as (out & e' & Hproc & Hq & Hlen' & Huv').
  exists out, e'. eexists. split; [exact Hproc|]. split.
  - unfold handle. erewrite E_bind_ok by exact Hproc. reflexivity.
  - split; [|split; [|split]]; simpl.
    + apply Arena.Reset_at_start. lia.
    + change (Arena.len (Arena.Reset (Mem e'))) with (Arena.len (Mem e')).
      lia.
    + assumption.
    + now rewrite Hq.
Qed.

Lemma handle_all_ready jobs : forall e,
  ready e -> exists outs e', handle_all jobs e = (Ok outs, e') /\ ready e'.
Proof.
  induction jobs as [|[now t] jobs IH]; intros e Hready.
  - exists [], e. split; [reflexivity|assumption].
  - destruct (handle_ready now t e Hready)
      as (out & e0 & e1 & _ & Hone & Hready1).
    destruct (IH e1 Hready1) as (outs & e' & Hall & Hready').
    exists (out ++ outs), e'. cbn [handle_all].
    erewrite E_bind_ok by exact Hone.
    erewrite E_bind_ok by exact Hall.
    split; [reflexivity|assumption].
Qed.

(** The last of a list of jobs is handled after the others, in the state
    they leave. *)
Lemma handle_all_snoc jobs now t : forall e outs e1 out e2,
  handle_all jobs e = (Ok outs, e1) ->
  handle now t e1 = (Ok out, e2) ->
  handle_all (jobs ++ [(now, t)]) e = (Ok (outs ++ out), e2).
Proof.
  induction jobs as [|[n0 t0] jobs IH]; intros e outs e1 out e2 Hall Hone.
  - injection Hall as <- <-. cbn [app handle_all].
    erewrite E_bind_ok by exact Hone.
    unfold mbind, E_bind, mret, E_ret. simpl. now rewrite app_nil_r.
  - cbn [app handle_all] in Hall |- *.
    unfold mbind at 1, E_bind at 1 in Hall.
    destruct (handle n0 t0 e) as [[o|m] e0] eqn:H0; [|discriminate Hall].
    unfold mbind at 1, E_bind at 1 in Hall.
    destruct (handle_all jobs e0) as [[os|m] e0'] eqn:Hrest;
      [|discriminate Hall].
    injection Hall as <- <-.
    erewrite E_bind_ok by exact H0.
    erewrite E_bind_ok by (eapply IH; [exact Hrest | exact Hone]).
    unfold mret, E_ret. now rewrite app_assoc.
Qed.

(** X15. [NewEngine] does not panic (1024 is a power of two): on a pool of
    reset arenas it returns an engine whose queue has capacity 1024 and
    holds nothing, whose table holds 1024 zeros and whose arena is the one
    [Acquire] hands out; the engine is ready for the loop. *)
Theorem NewEngine_fresh pool :
  Arena.pool_ok pool -> Forall (fun a => 8 <= Arena.len a) pool ->
  exists e,
    NewEngine pool = (Ok e, (Arena.Acquire pool).2) /\
    Mem e = (Arena.Acquire pool).1 /\
    Fastqueue.size (Queue e) = 1024 /\
    Fastqueue.pending (Queue e) = [] /\
    UserVolume e = replicate 1024 fzero /\
    ready e.
Proof.
  intros Hpool Hbig.
  destruct (NewEngine_ready pool Hpool Hbig) as (e & pool' & HNew & Hready).
  exists e. unfold NewEngine in *.
  change (Fastqueue.New 1024) with (Ok queue0) in *.
  destruct (Arena.Acquire pool) as [mem pool0].
  injection HNew as <- <-. simpl.
  split; [reflexivity|]. split; [reflexivity|]. split; [reflexivity|].
  split; [reflexivity|]. split; [reflexivity|exact Hready].
Qed.

(** X16. The loop does not panic and does not grow the arena: any number
    of rounds on a ready engine returns, and leaves the engine ready, the
    cursor of the arena back at 0. *)
Theorem serve_ready nows : forall e,
  ready e ->
  exists outs e',
    serve nows e = (Ok outs, e') /\ ready e' /\ Arena.offset (Mem e') = 0.
Proof.
  induction nows as [|now nows IH]; intros e Hready.
  - exists [], e. split; [reflexivity|]. split; [assumption|].
    apply Hready.
  - destruct (round_ready now e Hready) as (out & e1 & Hround & Hready1).
    destruct (IH e1 Hready1) as (outs & e' & Hserve & Hready' & Hoff).
    exists (out ++ outs), e'. cbn [serve].
    erewrite E_bind_ok by exact Hround.
    erewrite E_bind_ok by exact Hserve.
    split; [reflexivity|]. split; assumption.
Qed.

(** Rounds of the loop on the pending tasks, and the same tasks handled
    without the queue. *)
Lemma serve_handles_pending nows : forall e,
  ready e ->
  Fastqueue.tail (Queue e) <= Fastqueue.head (Queue e) ->
  length nows = length (Fastqueue.pending (Queue e)) ->
  exists outs e1 e2,
    serve nows e = (Ok outs, e1) /\
    handle_all (zip nows (Fastqueue.pending (Queue e))) e = (Ok outs, e2) /\
    Mem e1 = Mem e2 /\ UserVolume e1 = UserVolume e2 /\
    Fastqueue.pending (Queue e1) = [] /\ ready e1.
Proof.
  induction nows as [|now nows IH]; intros e Hready Hle Hlen.
  - exists [], e, e. simpl in Hlen.
    destruct (Fastqueue.pending (Queue e)); [|discriminate Hlen].
    split; [reflexivity|]. split; [reflexivity|]. split; [reflexivity|].
    split; [reflexivity|]. split; [reflexivity|assumption].
  - pose proof Hready as ((Hoff & Hmax) & Hlen8 & Huv & Hwf).
    pose proof (Fastqueue.wf_head _ Hwf) as Hh.
    pose proof (Fastqueue.wf_tail _ Hwf) as Ht.
    pose proof (Fastqueue.length_pending (Queue e)) as Hcount.
    rewrite u64_small in Hcount by lia.
    rewrite <- Hlen in Hcount. cbn [length] in Hcount.
    destruct (Fastqueue.Pop_some (Queue e) Hwf ltac:(lia))
      as (q & task & HPop & Hwfq & _ & Hhq & Htq & Hpend).
    rewrite u64_small in Htq by lia.
    destruct (process_total now task e Hready)
      as (out & e' & Hproc & Hq & Hlen' & Huv').
    pose proof (queue_free_process now task e q) as Hfree.
    rewrite Hproc in Hfree.
    set (e1' := {| Queue := q; Mem := Arena.Reset (Mem e');
                   UserVolume := UserVolume e' |}).
    assert (ready e1') as Hready1.
    { split; [|split; [|split]]; simpl.
      - apply Arena.Reset_at_start. lia.
      - change (Arena.len (Arena.Reset (Mem e'))) with (Arena.len (Mem e')).
        lia.
      - assumption.
      - assumption. }
    assert (length nows = length (Fastqueue.pending q)) as Hlen1.
    { rewrite Hpend in Hlen. simpl in Hlen. lia. }
    destruct (IH e1' Hready1 ltac:(simpl; lia) Hlen1)
      as (outs & e1 & e2 & Hserve & Hall & HM & HU & Hnone & Hready').
    pose proof (queue_free_handle_all (zip nows (Fastqueue.pending q))
                  e1' (Queue e)) as Hfree2.
    change (Fastqueue.pending (Queue e1')) with (Fastqueue.pending q) in Hall.
    rewrite Hall in Hfree2.
    exists (out ++ outs), e1, (with_Queue e2 (Queue e)).
    split; [|split; [|split; [|split; [|split]]]]; try assumption.
    + cbn [serve].
      assert (round now e = (Ok out, e1')) as Hround.
      { unfold round. rewrite HPop.
        change {| Queue := q; Mem := Mem e; UserVolume := UserVolume e |}
          with (with_Queue e q).
        rewrite Hfree. reflexivity. }
      erewrite E_bind_ok by exact Hround.
      erewrite E_bind_ok by exact Hserve. reflexivity.
    + rewrite Hpend. cbn [zip zip_with handle_all].
      assert (handle now task e = (Ok out, with_Queue e1' (Queue e))) as Hone.
      { unfold handle. erewrite E_bind_ok by exact Hproc.
        unfold mbind, E_bind, reset_mem, mret, E_ret, with_Queue. simpl.
        rewrite Hq. reflexivity. }
      erewrite E_bind_ok by exact Hone.
      erewrite E_bind_ok by exact Hfree2. reflexivity.
Qed.


(** X18. The slot of an aggregate task is the remainder of its id modulo
    1024 (the non-negative one, for a negative id too): ids that differ by
    a multiple of 1024 share a slot, no id makes the indexing panic, and
    no other slot, nor the arena, changes. *)
Theorem order_slot now t e :
  length (UserVolume e) = 1024%nat -> Type_ t = TaskTypeOrder ->
  let i := Value t mod 1024 in
  let total := fmul (Price t) (float64_of_int (Quantity t)) in
  exists out e',
    process now t e = (Ok out, e') /\
    0 <= i < 1024 /\
    UserVolume e' !! Z.to_nat i = Some (fadd (volume (UserVolume e) i) total) /\
    (forall k : nat,
       k <> Z.to_nat i -> UserVolume e' !! k = UserVolume e !! k) /\
    Mem e' = Mem e.
Proof.
  intros Huv Htype i total.
  assert (Z.land (Value t) 1023 = i) as Hland.
  { change 1023 with (Z.ones 10). now rewrite Z.land_ones by lia. }
  pose proof (Z.mod_pos_bound (Value t) 1024 ltac:(lia)) as Hi. fold i in Hi.
  rewrite (process_order now t e Huv Htype). cbv zeta. rewrite Hland.
  do 2 eexists. split; [reflexivity|]. split; [assumption|]. simpl.
  split; [|split; [|reflexivity]].
  - rewrite list_lookup_insert_eq by lia. reflexivity.
  - intros k Hk. rewrite list_lookup_insert_ne by lia. reflexivity.
Qed.

(** X19. [process] answers a task of type 0 or 1 with exactly one send, on
    the task's own channel; a task of any other type is dropped: nothing
    is sent (whoever waits for the answer waits for ever) and the engine is
    left as it was. *)
Theorem process_replies now t e :
  ready e ->
  exists out e',
    process now t e = (Ok out, e') /\
    (Type_ t = TaskTypeCalc \/ Type_ t = TaskTypeOrder ->
     exists v, out = [(Resp t, v)]) /\
    (Type_ t <> TaskTypeCalc -> Type_ t <> TaskTypeOrder ->
     out = [] /\ e' = e).
Proof.
  intros Hready. pose proof Hready as (_ & _ & Huv & _).
  destruct (Z.eq_dec (Type_ t) TaskTypeCalc) as [Hcalc|Hncalc].
  - destruct (process_calc now t e Hready Hcalc) as (mem' & _ & ->).
    do 2 eexists. split; [reflexivity|].
    split; [eauto | contradiction].
  - destruct (Z.eq_dec (Type_ t) TaskTypeOrder) as [Horder|Hnorder].
    + rewrite (process_order now t e Huv Horder).
      do 2 eexists. split; [reflexivity|].
      split; [eauto | contradiction].
    + unfold process.
      destruct (Z.eqb_spec (Type_ t) TaskTypeCalc); [contradiction|].
      destruct (Z.eqb_spec (Type_ t) TaskTypeOrder); [contradiction|].
      do 2 eexists. split; [reflexivity|].
      split; [intros [?|?]; contradiction | auto].
Qed.

(** *** The concrete engine *)

Example NewEngine_builds : NewEngine [arena64] = (Ok engine0, []).
Proof. reflexivity. Qed.

Example scale_50_gives_100 :
  fst (process 0 (calc_task 50) engine0) = Ok [(1%nat, AnyInt 100)] /\
  volume (UserVolume (snd (process 0 (calc_task 50) engine0))) 0
  = float64_of_int 100.
Proof. split; vm_compute; reflexivity. Qed.

(** The spec's scenario: price 100.0, quantity 5, id 1. *)
Example order_scenario :
  fst (process 7 (order_task (float64_of_int 100) 5 1 (Some [])) engine0) =
  Ok [(2%nat,
       AnyOrderResult
         {| Total := float64_of_int 500; ProcessedAt := 7;
            Log := Some (Zlog.bytes "ts=7 type=order uid=1 msg=processed"
                         ++ [x0a]) |})] /\
  volume (UserVolume
            (snd (process 7 (order_task (float64_of_int 100) 5 1 (Some []))
                    engine0))) 1
  = float64_of_int 500.
Proof. split; vm_compute; reflexivity. Qed.

Lemma dispatch_correct_witness :
  let calc := calc_task 50 in
  let o1 := order_task (float64_of_int 100) 5 1 (Some []) in
  let o2 := order_task (float64_of_int 3) 4 1 None in
  let e := engine0 in
  let r := wrap (Value calc * 2) in
  let total1 := fmul (Price o1) (float64_of_int (Quantity o1)) in
  let total2 := fmul (Price o2) (float64_of_int (Quantity o2)) in
  let id := Z.land (Value o1) 1023 in
  (exists e',
     process 0 calc e = (Ok [(Resp calc, AnyInt r)], e') /\
     UserVolume e' =
       <[0%nat := fadd (volume (UserVolume e) 0) (float64_of_int r)]>
         (UserVolume e)) /\
  (- 2 ^ 62 <= Value calc < 2 ^ 62 -> r = 2 * Value calc) /\
  (exists e1 e2 log1 log2,
     process 7 o1 e =
       (Ok [(Resp o1, AnyOrderResult {| Total := total1; ProcessedAt := 7;
                                        Log := log1 |})], e1) /\
     process 8 o2 e1 =
       (Ok [(Resp o2, AnyOrderResult {| Total := total2; ProcessedAt := 8;
                                        Log := log2 |})], e2) /\
     0 <= id < 1024 /\
     UserVolume e2 =
       <[Z.to_nat id := fadd (fadd (volume (UserVolume e) id) total1) total2]>
         (UserVolume e)).
Proof.
  apply (dispatch_correct 0 7 8 engine0 (calc_task 50)
           (order_task (float64_of_int 100) 5 1 (Some []))
           (order_task (float64_of_int 3) 4 1 None)).
  - exact engine0_ready.
  - reflexivity.
  - reflexivity.
  - reflexivity.
  - reflexivity.
Defined.

Lemma nil_log_buffer_witness :
  let t := order_task (float64_of_int 100) 5 1 None in
  exists total e' lg,
    total = fmul (Price t) (float64_of_int (Quantity t)) /\
    process 7 t engine0 =
      (Ok [(Resp t, AnyOrderResult {| Total := total; ProcessedAt := 7;
                                      Log := None |})], e') /\
    process 7 (with_LogBuf t (Some [])) engine0 =
      (Ok [(Resp t, AnyOrderResult {| Total := total; ProcessedAt := 7;
                                      Log := Some lg |})], e').
Proof.
  apply (nil_log_buffer 7 (order_task (float64_of_int 100) 5 1 None)
           engine0 []); reflexivity.
Defined.

(** C5 as stated fails for large values: for [v = 2^62] the product
    [v * 2] overflows, and the task is answered with [-2^63], not [2*v]. *)
Lemma scale_overflows :
  fst (process 0 (calc_task (2 ^ 62)) engine0)
    = Ok [(1%nat, AnyInt (- 2 ^ 63))] /\
  - 2 ^ 63 <> 2 * 2 ^ 62.
Proof. split; [vm_compute; reflexivity | lia]. Qed.

Lemma engine2_ready : ready engine2.
Proof.
  split; [|split; [|split]].
  - split; [reflexivity|]. vm_compute. discriminate.
  - vm_compute. discriminate.
  - reflexivity.
  - constructor; try (vm_compute; intuition discriminate).
    right. exists 10. split; [lia | reflexivity].
Qed.

Lemma NewEngine_fresh_witness :
  exists e,
    NewEngine [arena64] = (Ok e, (Arena.Acquire [arena64]).2) /\
    Mem e = (Arena.Acquire [arena64]).1 /\
    Fastqueue.size (Queue e) = 1024 /\
    Fastqueue.pending (Queue e) = [] /\
    UserVolume e = replicate 1024 fzero /\
    ready e.
Proof.
  apply (NewEngine_fresh [arena64]).
  - repeat constructor. vm_compute. discriminate.
  - repeat constructor. vm_compute. discriminate.
Defined.

Lemma serve_ready_witness :
  exists outs e',
    serve [7; 8; 9] engine2 = (Ok outs, e') /\ ready e' /\
    Arena.offset (Mem e') = 0.
Proof. apply (serve_ready [7; 8; 9] engine2). exact engine2_ready. Defined.


(** The loop on [engine2]: the scale task is answered first. *)
Example serve_engine2 :
  fst (serve [7; 8; 9] engine2) =
  Ok [(1%nat, AnyInt 100);
      (2%nat,
       AnyOrderResult
         {| Total := float64_of_int 500; ProcessedAt := 8;
            Log := Some (Zlog.bytes "ts=8 type=order uid=1 msg=processed"
                         ++ [x0a]) |})].
Proof. vm_compute. reflexivity. Qed.

Lemma order_slot_witness :
  let t := order_task (float64_of_int 100) 5 (-1023) (Some []) in
  let i := Value t mod 1024 in
  let total := fmul (Price t) (float64_of_int (Quantity t)) in
  exists out e',
    process 7 t engine0 = (Ok out, e') /\
    0 <= i < 1024 /\
    UserVolume e' !! Z.to_nat i
      = Some (fadd (volume (UserVolume engine0) i) total) /\
    (forall k : nat,
       k <> Z.to_nat i -> UserVolume e' !! k = UserVolume engine0 !! k) /\
    Mem e' = Mem engine0.
Proof.
  apply (order_slot 7 (order_task (float64_of_int 100) 5 (-1023) (Some []))
           engine0); reflexivity.
Defined.

Lemma process_replies_witness :
  exists out e',
    process 7 odd_task engine0 = (Ok out, e') /\
    (Type_ odd_task = TaskTypeCalc \/ Type_ odd_task = TaskTypeOrder ->
     exists v, out = [(Resp odd_task, v)]) /\
    (Type_ odd_task <> TaskTypeCalc -> Type_ odd_task <> TaskTypeOrder ->
     out = [] /\ e' = engine0).
Proof. apply (process_replies 7 odd_task engine0). exact engine0_ready. Defined.

End Core.

(** ** main.go: the submission layer

    A handler builds a task from the parameters of the request, pushes it
    on the engine's queue and, unless the queue is full, waits on the
    task's channel for the worker's answer.  The parameters are what
    [strconv.Atoi] and [strconv.ParseFloat] made of the query string (0
    for a missing or malformed one); the channel is the one that
    [make(chan any, 1)] returned. *)

Module Main.

Import Core.

(** Where a handler stands once it has pushed, or failed to push, its
    task. *)
Inductive reply : Type :=
| Busy                 (* [http.Error(w, "Core Busy", 503); return] *)
| Waiting (ch : chan). (* [<-respChan] *)

(** The task of [handleCalc]; the fields it does not name are zero. *)
Definition calc_request (val : Z) (respChan : chan) : Task :=
  {| Type_ := TaskTypeCalc; Value := val; Price := fzero; Quantity := 0;
     Resp := respChan; LogBuf := None |}.

(** The task of [handleOrder]; [logBuf] is an empty slice, not nil. *)
Definition order_request (price : float64) (qty uid : Z) (respChan : chan)
  : Task :=
  let uid := if uid =? 0 then 1 else uid in
  let logBuf := Some [] in
  {| Type_ := TaskTypeOrder; Value := uid; Price := price; Quantity := qty;
     Resp := respChan; LogBuf := logBuf |}.

(** [if !engine.Queue.Push(task) { ...; return }] *)
Definition submit (task : Task) : E reply := fun e =>
  match Fastqueue.Push (Queue e) task with
  | Ok (q, true) => (Ok (Waiting (Resp task)), with_Queue e q)
  | Ok (q, false) => (Ok Busy, with_Queue e q)
  | Panic msg => (Panic msg, e)
  end.

Definition handleCalc (val : Z) (respChan : chan) : E reply :=
  submit (calc_request val respChan).

Definition handleOrder (price : float64) (qty uid : Z) (respChan : chan)
  : E reply :=
  submit (order_request price qty uid respChan).

(** [fmt.Fprintf(w, "Calc Result: %v\n", result)] for a result that holds
    an [int]. *)
Definition calc_body (v : Z) : list byte :=
  Zlog.bytes "Calc Result: " ++ Zlog.decimal v ++ [x0a].

(** The slot of the table that a request with user id [uid] updates. *)
Definition slot_of_uid (uid : Z) : Z :=
  (if uid =? 0 then 1 else uid) mod 1024.

(** The log line of an order processed at [now] for slot [i]. *)
Definition order_log (now i : Z) : list byte :=
  Zlog.bytes "ts=" ++ Zlog.decimal now ++ Zlog.bytes " type=order uid="
  ++ Zlog.decimal i ++ Zlog.bytes " msg=processed" ++ [x0a].

(** An engine whose queue of capacity 1024 is full of scale tasks. *)
Definition full_engine : Engine :=
  {| Queue := {| Fastqueue.buffer := replicate 1024 (calc_task 1);
                 Fastqueue.size := 1024; Fastqueue.mask := 1023;
                 Fastqueue.head := 1024; Fastqueue.tail := 0 |};
     Mem := arena64; UserVolume := replicate 1024 fzero |}.

(** *** Submission *)

(** A handler finds the queue full and gives up, or leaves its task behind
    the pending ones; it touches nothing else of the engine. *)
Lemma submit_full task e :
  Fastqueue.size (Queue e)
    <= u64 (Fastqueue.head (Queue e) - Fastqueue.tail (Queue e)) ->
  submit task e = (Ok Busy, e).
Proof.
  intros Hfull. unfold submit. rewrite Fastqueue.Push_full by assumption.
  destruct e. reflexivity.
Qed.

Lemma submit_room task e :
  ready e ->
  u64 (Fastqueue.head (Queue e) - Fastqueue.tail (Queue e))
    < Fastqueue.size (Queue e) ->
  exists e',
    submit task e = (Ok (Waiting (Resp task)), e') /\ ready e' /\
    Fastqueue.pending (Queue e') = Fastqueue.pending (Queue e) ++ [task] /\
    Fastqueue.head (Queue e') = u64 (Fastqueue.head (Queue e) + 1) /\
    Fastqueue.tail (Queue e') = Fastqueue.tail (Queue e) /\
    Mem e' = Mem e /\ UserVolume e' = UserVolume e.
Proof.
  intros (Hstart & Hlen8 & Huv & Hwf) Hroom.
  destruct (Fastqueue.Push_room (Queue e) task Hwf Hroom)
    as (q & HPush & Hwfq & _ & Hh & Ht & Hpend).
  exists (with_Queue e q). unfold submit. rewrite HPush.
  split; [reflexivity|]. split.
  - split; [assumption|]. split; [assumption|]. split; assumption.
  - simpl. auto.
Qed.

(** X20. A handler that finds the queue full answers with "Core Busy" and
    leaves the engine as it was; one that finds room leaves its task
    behind the pending ones, touches neither the arena nor the table, and
    waits on the channel it put in the task. *)
Theorem handlers_busy_or_queued val price qty uid ch e :
  ready e ->
  let count :=
    u64 (Fastqueue.head (Queue e) - Fastqueue.tail (Queue e)) in
  (Fastqueue.size (Queue e) <= count ->
   handleCalc val ch e = (Ok Busy, e) /\
   handleOrder price qty uid ch e = (Ok Busy, e)) /\
  (count < Fastqueue.size (Queue e) ->
   exists e1 e2,
     handleCalc val ch e = (Ok (Waiting ch), e1) /\
     handleOrder price qty uid ch e = (Ok (Waiting ch), e2) /\
     Fastqueue.pending (Queue e1)
       = Fastqueue.pending (Queue e) ++ [calc_request val ch] /\
     Fastqueue.pending (Queue e2)
       = Fastqueue.pending (Queue e) ++ [order_request price qty uid ch] /\
     Mem e1 = Mem e /\ UserVolume e1 = UserVolume e /\
     Mem e2 = Mem e /\ UserVolume e2 = UserVolume e).
Proof.
  intros Hready count. split.
  - intros Hfull. split; apply submit_full; assumption.
  - intros Hroom.
    destruct (submit_room (calc_request val ch) e Hready Hroom)
      as (e1 & H1 & _ & Hp1 & _ & _ & Hm1 & Hu1).
    destruct (submit_room (order_request price qty uid ch) e Hready Hroom)
      as (e2 & H2 & _ & Hp2 & _ & _ & Hm2 & Hu2).
    exists e1, e2. unfold handleCalc, handleOrder.
    split; [exact H1|]. split; [exact H2|]. auto 10.
Qed.

(** A task submitted behind the pending ones is processed by the round
    that follows theirs, after their answers have been sent. *)
Lemma submit_then_serve task nows now e :
  ready e ->
  Fastqueue.tail (Queue e) <= Fastqueue.head (Queue e) ->
  Fastqueue.head (Queue e) < 2 ^ 64 - 1 ->
  Fastqueue.head (Queue e) - Fastqueue.tail (Queue e)
    < Fastqueue.size (Queue e) ->
  length nows = length (Fastqueue.pending (Queue e)) ->
  exists e1 outs emid out emid' e2,
    submit task e = (Ok (Waiting (Resp task)), e1) /\
    ready emid /\
    process now task emid = (Ok out, emid') /\
    serve (nows ++ [now]) e1 = (Ok (outs ++ out), e2) /\
    UserVolume e2 = UserVolume emid' /\
    Fastqueue.pending (Queue e2) = [] /\ ready e2.
Proof.
  intros Hready Hle Hmax Hroom Hlen.
  pose proof Hready as (_ & _ & _ & Hwf).
  pose proof (Fastqueue.wf_head _ Hwf) as Hh.
  pose proof (Fastqueue.wf_tail _ Hwf) as Ht.
  destruct (submit_room task e Hready) as
    (e1 & Hsub & Hready1 & Hpend & Hh1 & Ht1 & _).
  { rewrite u64_small by lia. exact Hroom. }
  rewrite u64_small in Hh1 by lia.
  destruct (serve_handles_pending (nows ++ [now]) e1 Hready1 ltac:(lia))
    as (outs_all & e2 & e2' & Hserve & Hall & _ & HU & Hnone & Hready2).
  { rewrite Hpend, !length_app. simpl. lia. }
  rewrite Hpend in Hall.
  rewrite zip_with_app in Hall by exact Hlen.
  cbn [zip_with] in Hall.
  destruct (handle_all_ready (zip nows (Fastqueue.pending (Queue e))) e1
              Hready1) as (outs & emid & Hbefore & Hreadymid).
  destruct (handle_ready now task emid Hreadymid)
    as (out & emid' & e3 & Hproc & Hone & _).
  rewrite (handle_all_snoc _ now task e1 outs emid out e3 Hbefore Hone)
    in Hall.
  injection Hall as <- <-.
  assert (UserVolume e3 = UserVolume emid') as HU3.
  { unfold handle in Hone. erewrite E_bind_ok in Hone by exact Hproc.
    injection Hone as <-. reflexivity. }
  exists e1, outs, emid, out, emid', e2.
  split; [exact Hsub|]. split; [exact Hreadymid|].
  split; [exact Hproc|]. split; [exact Hserve|].
  split; [congruence|]. split; assumption.
Qed.

Lemma order_log_bytes now i :
  Zlog.Bytes
    (Zlog.Msg "processed"
       (Zlog.Int "uid" i
          (Zlog.Str "type" "order" (Zlog.Int "ts" now (Zlog.Wrap [])))))
  = order_log now i.
Proof.
  unfold order_log, Zlog.Bytes, Zlog.Msg, Zlog.Int, Zlog.Str,
    Zlog.appendString, Zlog.appendInt, Zlog.AppendInt, Zlog.Wrap.
  cbn [Zlog.buf]. rewrite <- !app_assoc. reflexivity.
Qed.



(** *** The concrete engines *)

Example busy_on_full_engine :
  handleCalc 5 9%nat full_engine = (Ok Busy, full_engine) /\
  handleOrder (float64_of_int 100) 5 0 9%nat full_engine
    = (Ok Busy, full_engine).
Proof. split; vm_compute; reflexivity. Qed.

Example uid_0_counts_as_1 :
  slot_of_uid 0 = 1 /\ slot_of_uid 1024 = 0 /\ slot_of_uid (-1) = 1023.
Proof. repeat split; reflexivity. Qed.

Example calc_body_100 : calc_body 100 = Zlog.bytes "Calc Result: 100" ++ [x0a].
Proof. reflexivity. Qed.

Lemma handlers_busy_or_queued_witness :
  let e := engine2 in
  let count :=
    u64 (Fastqueue.head (Queue e) - Fastqueue.tail (Queue e)) in
  (Fastqueue.size (Queue e) <= count ->
   handleCalc 50 4%nat e = (Ok Busy, e) /\
   handleOrder (float64_of_int 100) 5 0 4%nat e = (Ok Busy, e)) /\
  (count < Fastqueue.size (Queue e) ->
   exists e1 e2,
     handleCalc 50 4%nat e = (Ok (Waiting 4%nat), e1) /\
     handleOrder (float64_of_int 100) 5 0 4%nat e
       = (Ok (Waiting 4%nat), e2) /\
     Fastqueue.pending (Queue e1)
       = Fastqueue.pending (Queue e) ++ [calc_request 50 4%nat] /\
     Fastqueue.pending (Queue e2)
       = Fastqueue.pending (Queue e)
         ++ [order_request (float64_of_int 100) 5 0 4%nat] /\
     Mem e1 = Mem e /\ UserVolume e1 = UserVolume e /\
     Mem e2 = Mem e /\ UserVolume e2 = UserVolume e).
Proof.
  apply (handlers_busy_or_queued 50 (float64_of_int 100) 5 0 4%nat engine2).
  exact engine2_ready.
Defined.



End Main.
